(** * SCS conic-solver interface: PSD vectorisation, data formatting,
      solution inversion and solver invocation

    Shallow embedding of [cvxpy/reductions/solvers/conic_solvers/scs_conif.py].
    NumPy floating-point arrays are idealised as lists of real numbers;
    Python dictionaries are finite maps. *)

From Stdlib Require Import Reals Lra Lia ZArith.
From stdpp Require Import gmap strings list sorting.

#[global] Instance R_eq_dec : EqDecision R := Req_dec_T.

(** ** NumPy primitives used by the PSD utilities *)

Module Np.

(** A two-dimensional [ndarray], stored as its list of rows. *)
Abbreviation ndarray2 := (list (list R)).

Definition zeros (n m : nat) : ndarray2 := replicate n (replicate m 0%R).

(** [a[i, j]]; every read below is inside the array's shape. *)
Definition get2 (a : ndarray2) (p : nat * nat) : R :=
  default 0%R (a !! p.1 ≫= λ row, row !! p.2).

(** [a[i, j] = v] *)
Definition set2 (a : ndarray2) (p : nat * nat) (v : R) : ndarray2 :=
  alter (λ row, <[p.2 := v]> row) p.1 a.

(** [np.arange(lo, hi)] *)
Definition arange (lo hi : nat) : list nat := seq lo (hi - lo).

(** [np.tril_indices(n, k)]: the positions [(i, j)] with [j - i <= k],
    in row-major order (the order of [np.nonzero]). *)
Definition tril_indices (n : nat) (k : Z) : list (nat * nat) :=
  i ← seq 0 n;
  j ← filter (λ j, (Z.of_nat j - Z.of_nat i ≤ k)%Z) (seq 0 n);
  [(i, j)].

(** [np.triu_indices(n, k)]: the positions [(i, j)] with [j - i >= k],
    in row-major order. *)
Definition triu_indices (n : nat) (k : Z) : list (nat * nat) :=
  i ← seq 0 n;
  j ← filter (λ j, (k ≤ Z.of_nat j - Z.of_nat i)%Z) (seq 0 n);
  [(i, j)].

(** [np.ravel_multi_index(idx, (rows, cols), order='F')] *)
Definition ravel_multi_index_F (idx : list (nat * nat)) (dims : nat * nat)
  : list nat :=
  (λ p, p.1 + p.2 * dims.1) <$> idx.

(** [np.sort] on an integer array. *)
Definition sort (l : list nat) : list nat := merge_sort le l.

(** [a[idx] = c] for a scalar [c]. *)
Definition fill_at (a : ndarray2) (idx : list (nat * nat)) (c : R) : ndarray2 :=
  foldl (λ a p, set2 a p c) a idx.

(** Element-wise scatter of [vals] over [idx], in index order. *)
Fixpoint scatter (a : ndarray2) (idx : list (nat * nat)) (vals : list R)
  : ndarray2 :=
  match idx, vals with
  | p :: idx', v :: vals' => scatter (set2 a p v) idx' vals'
  | _, _ => a
  end.

(** [a[idx] = vals] for a one-dimensional [vals]: the shapes must agree,
    except that a length-one array is broadcast; any other length raises
    [ValueError], rendered as [None]. *)
Definition assign_at (a : ndarray2) (idx : list (nat * nat)) (vals : list R)
  : option ndarray2 :=
  if decide (length vals = length idx) then Some (scatter a idx vals)
  else match vals with
       | [v] => Some (fill_at a idx v)
       | _ => None
       end.

(** [a[idx] /= c]: gather, divide, scatter back. *)
Definition div_at (a : ndarray2) (idx : list (nat * nat)) (c : R) : ndarray2 :=
  scatter a idx ((λ p, (get2 a p / c)%R) <$> idx).

(** [np.fill_diagonal(a, c)] on a square [n]-by-[n] array. *)
Definition fill_diagonal (n : nat) (a : ndarray2) (c : R) : ndarray2 :=
  fill_at a ((λ i, (i, i)) <$> seq 0 n) c.

(** [np.ravel(a, order='F')] and [np.reshape(a, n*m, order='F')]:
    column-major flattening of an [n]-by-[m] array. *)
Definition ravel_F (n m : nat) (a : ndarray2) : list R :=
  j ← seq 0 m; (λ i, get2 a (i, j)) <$> seq 0 n.

(** [v[np.nonzero(v)]] *)
Definition nonzero_values (v : list R) : list R :=
  filter (λ x, x ≠ 0%R) v.

(** [v[lo:hi]] with Python's clipping of out-of-range bounds. *)
Definition slice (v : list R) (lo hi : nat) : list R :=
  take (hi - lo) (drop lo v).

(** Unary minus on a matrix, [A[:, :-1]], and [A[:, -1]] flattened; the
    last raises [IndexError] on a row without columns.  A matrix without
    rows is the empty list of rows, which does not record a column
    count: [last_col] returns on it, as the code does when the map has
    columns. *)
Definition neg (a : ndarray2) : ndarray2 :=
  (λ row : list R, Ropp <$> row) <$> a.

Definition drop_last_col (a : ndarray2) : ndarray2 :=
  (λ row : list R, removelast row) <$> a.

Definition last_col (a : ndarray2) : option (list R) := mapM last a.

End Np.

(** ** SciPy sparse matrices in coordinate form *)

Module Sp.

Record csc := { shape : nat * nat; coo : list (nat * nat * R) }.

(** [sp.csc_matrix((val, (row, col)), shape)]: the three arrays must have
    the same length, otherwise [ValueError]. *)
Definition csc_matrix (val : list R) (row col : list nat) (sh : nat * nat)
  : option csc :=
  if decide (length row = length val ∧ length col = length val)
  then Some {| shape := sh; coo := zip (zip row col) val |}
  else None.

Definition sum_R (l : list R) : R := foldr Rplus 0%R l.

(** The product [F @ x] of a sparse matrix with a dense vector. *)
Definition matvec (F : csc) (x : list R) : list R :=
  (λ r, sum_R ((λ e : nat * nat * R,
                  if decide (e.1.1 = r) then (e.2 * default 0 (x !! e.1.2))%R
                  else 0%R) <$> coo F)) <$> seq 0 (shape F).1.

End Sp.

(** ** Utility methods for semidefinite constraints *)

(** [scaled_lower_tri(size)], lines 44-75. *)
Definition scaled_lower_tri (size : nat) : option Sp.csc :=
  let rows := size in
  let cols := size in
  let entries := rows * (cols + 1) / 2 in
  let row_arr := Np.arange 0 entries in
  let lower_diag_indices := Np.tril_indices rows 0 in
  let col_arr :=
    Np.sort (Np.ravel_multi_index_F lower_diag_indices (rows, cols)) in
  let val_arr := Np.zeros rows cols in
  let val_arr := Np.fill_at val_arr lower_diag_indices (1 / sqrt 2)%R in
  let val_arr := Np.fill_diagonal rows val_arr 0.5%R in
  let val_arr := Np.ravel_F rows cols val_arr in
  let val_arr := Np.nonzero_values val_arr in
  Sp.csc_matrix val_arr row_arr col_arr (entries, rows * cols).

(** [tri_to_full(lower_tri, n)], lines 78-104. *)
Definition tri_to_full (lower_tri : list R) (n : nat) : option (list R) :=
  let full := Np.zeros n n in
  full ← Np.assign_at full (Np.triu_indices n 0) lower_tri;
  full ← Np.assign_at full (Np.tril_indices n 0) lower_tri;
  let full := Np.div_at full (Np.tril_indices n (-1)) (sqrt 2) in
  let full := Np.div_at full (Np.triu_indices n 1) (sqrt 2) in
  Some (Np.ravel_F n n full).

(** ** Collaborators outside this file *)

(** Modelled from the spec: the caller-level status taxonomy of
    [cvxpy.settings] (optimal, optimal-inaccurate, unbounded,
    unbounded-inaccurate, infeasible, infeasible-inaccurate and a generic
    solver-error bucket), the statuses that signal a usable solution, and
    the keys of the diagnostics attribute bag. *)
Module s.

Inductive status :=
| OPTIMAL
| OPTIMAL_INACCURATE
| UNBOUNDED
| UNBOUNDED_INACCURATE
| INFEASIBLE
| INFEASIBLE_INACCURATE
| SOLVER_ERROR.

#[global] Instance status_eq_dec : EqDecision status.
Proof. solve_decision. Defined.

Definition SOLUTION_PRESENT : list status := [OPTIMAL; OPTIMAL_INACCURATE].

Definition SOLVE_TIME : string := "solve_time".
Definition SETUP_TIME : string := "setup_time".
Definition NUM_ITERS : string := "num_iters".

End s.

(** Python scalars stored in option maps and attribute bags. *)
Inductive pyval :=
| PyFloat (r : R)
| PyInt (z : Z)
| PyBool (b : bool).

(** Objects stored in the solver request. *)
Inductive pyarr :=
| Matrix (a : Np.ndarray2)
| Vector (v : list R).

(** Constraints as this file sees them: the cone kind, the flat [size] of
    a non-PSD constraint, and the side length [shape[0]] of a PSD one. *)
Inductive constraint :=
| Zero (size : nat)
| NonPos (size : nat)
| SOC (size : nat)
| ExpCone (size : nat)
| PSD (dim : nat).

Definition size (c : constraint) : nat :=
  match c with
  | Zero n | NonPos n | SOC n | ExpCone n => n
  | PSD d => d * d
  end.

Record ConeDims := {
  zero : nat;
  nonpos : nat;
  soc : list nat;
  exp : nat;
  psd : list nat
}.

(** The [Solution] record of [cvxpy.reductions.solution]. *)
Record Solution := {
  status : s.status;
  opt_val : option R;
  primal_vars : gmap nat (list R);
  dual_vars : gmap string (list R);
  attr : gmap string pyval
}.

(** Modelled from the spec: [failure_solution(status)] of
    [cvxpy.reductions.solution], a failure record carrying only the
    status, with no primal or dual maps populated. *)
Definition failure_solution (st : s.status) : Solution :=
  {| status := st; opt_val := None; primal_vars := ∅; dual_vars := ∅;
     attr := ∅ |}.

Module utilities.

(** Modelled from the spec: [utilities.extract_dual_value], the generic
    extraction, which returns the slice of the constraint's rows
    unchanged and advances the cursor by the row count. *)
Definition extract_dual_value (result_vec : list R) (offset : nat)
    (c : constraint) : list R * nat :=
  (Np.slice result_vec offset (offset + size c), offset + size c).

End utilities.

(** The solver's response: [x], [y], [s] and the [info] sub-mapping. *)
Record scs_info := {
  info_status : string;
  pobj : R;
  solveTime : R;
  setupTime : R;
  iter : Z
}.

Record scs_result := {
  res_x : list R;
  res_y : list R;
  res_s : list R;
  info : scs_info
}.

(** The cones dictionary handed to the solver. *)
Record scs_cones := {
  cone_f : nat;
  cone_l : nat;
  cone_q : list nat;
  cone_ep : nat;
  cone_s : list nat
}.

(** [dims_to_solver_dict(cone_dims)], lines 32-40. *)
Definition dims_to_solver_dict (cone_dims : ConeDims) : scs_cones :=
  {| cone_f := zero cone_dims;
     cone_l := nonpos cone_dims;
     cone_q := soc cone_dims;
     cone_ep := exp cone_dims;
     cone_s := psd cone_dims |}.

(** What one call of [scs.solve(args, cones, verbose=..., **opts)]
    receives. *)
Record scs_call := {
  call_args : gmap string pyarr;
  call_cones : scs_cones;
  call_verbose : bool;
  call_opts : gmap string pyval
}.

(** ** The SCS interface class *)

Module SCS.

(** [SCS.STATUS_MAP], lines 118-127. *)
Definition STATUS_MAP : gmap string s.status :=
  list_to_map
    [("Solved", s.OPTIMAL);
     ("Solved/Inaccurate", s.OPTIMAL_INACCURATE);
     ("Unbounded", s.UNBOUNDED);
     ("Unbounded/Inaccurate", s.UNBOUNDED_INACCURATE);
     ("Infeasible", s.INFEASIBLE);
     ("Infeasible/Inaccurate", s.INFEASIBLE_INACCURATE);
     ("Failure", s.SOLVER_ERROR);
     ("Indeterminate", s.SOLVER_ERROR);
     ("Interrupted", s.SOLVER_ERROR)].

(** [SCS.psd_format_mat(constr)], lines 143-168; [constr.expr.shape[0]]
    is the side length of the PSD constraint. *)
Definition psd_format_mat (dim : nat) : option Sp.csc :=
  let rows := dim in
  let cols := dim in
  let entries := rows * (cols + 1) / 2 in
  let row_arr := Np.arange 0 entries in
  let lower_diag_indices := Np.tril_indices rows 0 in
  let col_arr :=
    Np.sort (Np.ravel_multi_index_F lower_diag_indices (rows, cols)) in
  let val_arr := Np.zeros rows cols in
  let val_arr := Np.fill_at val_arr lower_diag_indices (1 / sqrt 2)%R in
  let val_arr := Np.fill_diagonal rows val_arr 0.5%R in
  let val_arr := Np.ravel_F rows cols val_arr in
  let val_arr := Np.nonzero_values val_arr in
  Sp.csc_matrix val_arr row_arr col_arr (entries, rows * cols).

(** The solver-ready data and the data kept for inversion.  The
    formatted program stored under [PARAM_PROB] is read by no method of
    this class and is left out. *)
Record data := {
  DIMS : ConeDims;
  C : list R;
  A : Np.ndarray2;
  B : list R
}.

Record inverse_data := {
  VAR_ID : nat;
  inv_DIMS : ConeDims;
  OFFSET : R
}.

(** [SCS.extract_dual_value], lines 210-224. *)
Definition extract_dual_value (result_vec : list R) (offset : nat)
    (c : constraint) : option (list R * nat) :=
  match c with
  | PSD dim =>
      let lower_tri_dim := dim * (dim + 1) / 2 in
      let new_offset := offset + lower_tri_dim in
      let lower_tri := Np.slice result_vec offset new_offset in
      full ← tri_to_full lower_tri dim;
      Some (full, new_offset)
  | _ => Some (utilities.extract_dual_value result_vec offset c)
  end.

Section interface.

(** The upstream problem, its decision-variable identifier, the cone
    dimensions of its grouped constraints, and the parameterised conic
    program [formatted.apply_parameters()] with cost vector [c] and
    homogenised affine map [A]. *)
Context {problem : Type}.
Variable x_id : problem → nat.
Variable cone_dims : problem → ConeDims.
Variable prob_c : problem → list R.
Variable prob_A : problem → Np.ndarray2.

(** [intf.DEFAULT_INTF.const_to_matrix] *)
Variable const_to_matrix : list R → list R.

(** The key under which the dual vector is returned, the solver's name
    and the external solver itself. *)
Variable DUAL_VAR_ID : string.
Variable name : string.
Variable scs_solve : scs_call → scs_result.

(** [SCS.apply], lines 172-208.  [v[-1]] raises [IndexError] on an empty
    vector, and so does [A[:, -1]] on a row without columns. *)
Definition apply (p : problem) : option (data * inverse_data) :=
  let dims := cone_dims p in
  let c := removelast (prob_c p) in
  offset ← last (prob_c p);
  let A := Np.neg (Np.drop_last_col (prob_A p)) in
  b ← Np.last_col (prob_A p);
  Some ({| DIMS := dims; C := c; A := A; B := b |},
        {| VAR_ID := x_id p; inv_DIMS := dims; OFFSET := offset |}).

(** [SCS.invert], lines 226-249.  A status string outside [STATUS_MAP]
    raises [KeyError]. *)
Definition invert (solution : scs_result) (inv : inverse_data)
  : option Solution :=
  status ← STATUS_MAP !! info_status (info solution);
  let attr : gmap string pyval := ∅ in
  let attr := <[s.SOLVE_TIME := PyFloat (solveTime (info solution))]> attr in
  let attr := <[s.SETUP_TIME := PyFloat (setupTime (info solution))]> attr in
  let attr := <[s.NUM_ITERS := PyInt (iter (info solution))]> attr in
  if decide (status ∈ s.SOLUTION_PRESENT) then
    let primal_val := pobj (info solution) in
    let opt_val := (primal_val + OFFSET inv)%R in
    let primal_vars : gmap nat (list R) :=
      {[ VAR_ID inv := const_to_matrix (res_x solution) ]} in
    let dual_vars : gmap string (list R) :=
      {[ DUAL_VAR_ID := const_to_matrix (res_y solution) ]} in
    Some {| status := status; opt_val := Some opt_val;
            primal_vars := primal_vars; dual_vars := dual_vars;
            attr := attr |}
  else Some (failure_solution status).

(** The effect of one call of [solve_via_data]: the returned result
    ([None] when the call raises), the caller's option map and cache as
    the call leaves them, and the request the external solver received,
    if it was called at all. *)
Record outcome := {
  results : option scs_result;
  opts_after : gmap string pyval;
  cache_after : option (gmap string scs_result);
  request : option scs_call
}.

(** [SCS.solve_via_data], lines 251-286.  The call
    [scs.solve(args, cones, verbose=verbose, **solver_opts)] passes
    [verbose] by keyword and the option map as further keywords: a
    ['verbose'] key in [solver_opts] raises [TypeError] before the solver
    runs, after line 278 has written ['eps'].  The solver itself is
    taken as a total function of its request. *)
Definition solve_via_data (d : data) (warm_start verbose : bool)
    (solver_opts : gmap string pyval)
    (solver_cache : option (gmap string scs_result)) : outcome :=
  let args : gmap string pyarr :=
    <["c" := Vector (C d)]> (<["b" := Vector (B d)]> {["A" := Matrix (A d)]}) in
  let args :=
    match warm_start, solver_cache ≫= (λ cache, cache !! name) with
    | true, Some prev =>
        <["s" := Vector (res_s prev)]>
          (<["y" := Vector (res_y prev)]>
             (<["x" := Vector (res_x prev)]> args))
    | _, _ => args
    end in
  let cones := dims_to_solver_dict (DIMS d) in
  let solver_opts :=
    <["eps" := default (PyFloat 1e-4) (solver_opts !! "eps")]> solver_opts in
  match solver_opts !! "verbose" with
  | Some _ =>
      {| results := None; opts_after := solver_opts;
         cache_after := solver_cache; request := None |}
  | None =>
      let call := {| call_args := args; call_cones := cones;
                     call_verbose := verbose; call_opts := solver_opts |} in
      let results := scs_solve call in
      let solver_cache :=
        match solver_cache with
        | Some cache => Some (<[name := results]> cache)
        | None => None
        end in
      {| results := Some results; opts_after := solver_opts;
         cache_after := solver_cache; request := Some call |}
  end.

End interface.

End SCS.

(** * Vocabulary of the properties *)

(** The lower-triangular positions [(i, j)], [j <= i < n], in column-major
    order. *)
Definition lower_F (n : nat) : list (nat * nat) :=
  j ← seq 0 n; (λ i, (i, j)) <$> seq j (n - j).

(** The coefficient the forward matrix puts on a lower-triangular
    position. *)
Definition coef (p : nat * nat) : R :=
  if decide (p.1 = p.2) then 0.5%R else (1 / sqrt 2)%R.

(** The dense array of values built by lines 68-70. *)
Definition val_matrix (n : nat) : Np.ndarray2 :=
  Np.fill_diagonal n
    (Np.fill_at (Np.zeros n n) (Np.tril_indices n 0) (1 / sqrt 2)%R) 0.5%R.

Definition has_shape (n m : nat) (a : Np.ndarray2) : Prop :=
  length a = n ∧ Forall (λ row, length row = m) a.

(** The coordinate form of the forward matrix. *)
Definition lower_tri_coo (n : nat) : list (nat * nat * R) :=
  zip (zip (seq 0 (length (lower_F n)))
           ((λ p, p.1 + p.2 * n) <$> lower_F n))
      (coef <$> lower_F n).

(** The forward vectorisation: the matrix of [psd_format_mat] multiplied
    with the column-major flattening of the coefficients. *)
Definition forward_vectorize (n : nat) (M : Np.ndarray2) : option (list R) :=
  F ← SCS.psd_format_mat n; Some (Sp.matvec F (Np.ravel_F n n M)).

(** [expr + expr.T] *)
Definition symmetric_sum (n : nat) (M : Np.ndarray2) : Np.ndarray2 :=
  (λ i, (λ j, (Np.get2 M (i, j) + Np.get2 M (j, i))%R) <$> seq 0 n)
    <$> seq 0 n.

(** The forward vectorisation under the symmetric-sum convention of
    lines 169-170: the halved matrix applied to [expr + expr.T]. *)
Definition forward_vectorize_sym (n : nat) (M : Np.ndarray2)
  : option (list R) :=
  forward_vectorize n (symmetric_sum n M).

Definition symmetric (n : nat) (M : Np.ndarray2) : Prop :=
  ∀ i j, i < n → j < n → Np.get2 M (i, j) = Np.get2 M (j, i).

Definition eye2 : Np.ndarray2 := [[1; 0]; [0; 1]]%R.
Definition ones2 : Np.ndarray2 := [[1; 1]; [1; 1]]%R.
Definition eye3 : Np.ndarray2 := [[1; 0; 0]; [0; 1; 0]; [0; 0; 1]]%R.

(** The expansion the docstring of [tri_to_full] describes: the vector
    holds the lower triangle in column-major order; it is mirrored across
    the diagonal, entries off the diagonal are divided by [sqrt 2], and
    the matrix is flattened in column-major order. *)
Definition lower_index (n : nat) (p : nat * nat) : option nat :=
  fst <$> list_find (λ q, q = p) (lower_F n).

Definition mirrored_expansion (v : list R) (n : nat) : list R :=
  j ← seq 0 n;
  (λ i, let x :=
          default 0%R (k ← lower_index n (max i j, min i j); v !! k) in
        if decide (i = j) then x else (x / sqrt 2)%R) <$> seq 0 n.

(** The row count of a constraint in the dual vector. *)
Definition rows (c : constraint) : nat :=
  match c with
  | PSD n => n * (n + 1) / 2
  | _ => size c
  end.

Definition solver_statuses : list string :=
  ["Solved"; "Solved/Inaccurate"; "Unbounded"; "Unbounded/Inaccurate";
   "Infeasible"; "Infeasible/Inaccurate"; "Failure"; "Indeterminate";
   "Interrupted"].

Definition failure_statuses : list string :=
  ["Unbounded"; "Unbounded/Inaccurate"; "Infeasible";
   "Infeasible/Inaccurate"; "Failure"; "Indeterminate"; "Interrupted"].

(** A raw result of the program [minimize x] subject to [x >= 1]. *)
Definition solved_result : scs_result :=
  {| res_x := [1%R]; res_y := [1%R]; res_s := [0%R];
     info := {| info_status := "Solved"; pobj := 1; solveTime := 0;
                setupTime := 0; iter := 5 |} |}.

(** A raw result reporting infeasibility after 3 iterations. *)
Definition infeasible_result : scs_result :=
  {| res_x := []; res_y := []; res_s := [];
     info := {| info_status := "Infeasible"; pobj := 0; solveTime := 1;
                setupTime := 2; iter := 3 |} |}.

(** [hstack A0 b0] appends [b0] as a last column to [A0]. *)
Definition hstack (A0 : Np.ndarray2) (b0 : list R) : Np.ndarray2 :=
  zip_with (λ row b, row ++ [b]) A0 b0.

(** The cache entry a warm start would read. *)
Definition cached (name : string)
    (solver_cache : option (gmap string scs_result)) : option scs_result :=
  solver_cache ≫= λ cache, cache !! name.

(** The solver-ready data of [minimize x] subject to [x >= 1]. *)
Definition lp_data : SCS.data :=
  {| SCS.DIMS := Build_ConeDims 0 1 [] 0 []; SCS.C := [1%R];
     SCS.A := [[(-1)%R]]; SCS.B := [(-1)%R] |}.

(** A position inside an [n]-by-[m] array. *)
Definition in_shape (n m : nat) (p : nat * nat) : Prop := p.1 < n ∧ p.2 < m.

(** The solver status strings that signal a usable solution. *)
Definition usable_statuses : list string := ["Solved"; "Solved/Inaccurate"].

(** Evaluation of array programs on concrete shapes, leaving the real
    arithmetic untouched. *)
Ltac eval_arrays := cbv -[Rdiv Rmult Rplus Rinv Ropp sqrt IZR].

(** * Properties *)

(** ** Index arrays of the PSD utilities *)

Lemma elem_of_tril_indices n k p :
  p ∈ Np.tril_indices n k ↔ p.1 < n ∧ p.2 < n ∧ (Z.of_nat p.2 - Z.of_nat p.1 ≤ k)%Z.
Proof.
  unfold Np.tril_indices. rewrite list_elem_of_bind. split.
  - intros (i & Hp & Hi). apply list_elem_of_bind in Hp as (j & Hp & Hj).
    apply list_elem_of_singleton in Hp as ->.
    apply list_elem_of_filter in Hj as [Hle Hj].
    apply elem_of_seq in Hi, Hj. simpl. lia.
  - destruct p as [i j]. simpl. intros (Hi & Hj & Hle).
    exists i. split; [| apply elem_of_seq; lia].
    apply list_elem_of_bind. exists j. split; [by apply list_elem_of_singleton |].
    apply list_elem_of_filter. split; [done | apply elem_of_seq; lia].
Qed.

Lemma elem_of_lower_F n p : p ∈ lower_F n ↔ p.2 ≤ p.1 < n.
Proof.
  unfold lower_F. rewrite list_elem_of_bind. split.
  - intros (j & Hp & Hj). apply list_elem_of_fmap in Hp as (i & -> & Hi).
    apply elem_of_seq in Hi, Hj. simpl. lia.
  - destruct p as [i j]. simpl. intros Hij. exists j.
    split; [| apply elem_of_seq; lia].
    apply list_elem_of_fmap. exists i. split; [done | apply elem_of_seq; lia].
Qed.

Lemma NoDup_tril_indices n k : NoDup (Np.tril_indices n k).
Proof.
  unfold Np.tril_indices. apply NoDup_bind; [| | apply NoDup_seq].
  - intros i1 i2 p _ _ H1 H2.
    apply list_elem_of_bind in H1 as (j1 & H1 & _), H2 as (j2 & H2 & _).
    apply list_elem_of_singleton in H1, H2. congruence.
  - intros i _. apply NoDup_bind; [| | apply NoDup_filter, NoDup_seq].
    + intros j1 j2 p _ _ H1 H2. apply list_elem_of_singleton in H1, H2. congruence.
    + intros j _. apply NoDup_singleton.
Qed.

Lemma NoDup_lower_F n : NoDup (lower_F n).
Proof.
  unfold lower_F. apply NoDup_bind; [| | apply NoDup_seq].
  - intros j1 j2 p _ _ H1 H2.
    apply list_elem_of_fmap in H1 as (i1 & -> & _), H2 as (i2 & ? & _).
    congruence.
  - intros j _. apply NoDup_fmap_2; [| apply NoDup_seq].
    intros i1 i2 ?. congruence.
Qed.

Lemma tril_indices_lower_F n : Np.tril_indices n 0 ≡ₚ lower_F n.
Proof.
  apply NoDup_Permutation; [apply NoDup_tril_indices | apply NoDup_lower_F |].
  intros p. rewrite elem_of_tril_indices, elem_of_lower_F. lia.
Qed.

(** A concatenation of blocks is sorted when each block is and the
    blocks are ordered. *)
Lemma StronglySorted_bind_blocks {T} (f : T → list nat) (lo : T → nat)
    (hi : T → nat) (l : list T) :
  (∀ x, x ∈ l → StronglySorted lt (f x)) →
  (∀ x y, x ∈ l → y ∈ f x → lo x ≤ y < hi x) →
  StronglySorted (λ x y, hi x ≤ lo y) l →
  StronglySorted lt (l ≫= f).
Proof.
  intros Hf Hb Hl. induction Hl as [| x l Hl IH Hx]; [constructor |].
  rewrite bind_cons. apply StronglySorted_app_2.
  - intros y z Hy (x' & Hz & Hx')%list_elem_of_bind.
    rewrite Forall_forall in Hx. specialize (Hx _ Hx').
    apply (Hb x) in Hy; [| by left]. apply (Hb x') in Hz; [| by right]. lia.
  - apply Hf. by left.
  - apply IH; intros; [apply Hf | eapply Hb]; try by right. done.
Qed.

Lemma StronglySorted_weaken {T} (R1 R2 : relation T) (l : list T) :
  (∀ x y, R1 x y → R2 x y) → StronglySorted R1 l → StronglySorted R2 l.
Proof.
  intros HR. induction 1 as [| x l _ IH Hx]; constructor; [done |].
  eapply Forall_impl; [exact Hx | auto].
Qed.

Lemma fmap_bind_list {T U V} (f : U → V) (g : T → list U) (l : list T) :
  f <$> (l ≫= g) = l ≫= λ x, f <$> g x.
Proof.
  induction l as [| x l IH]; [reflexivity |].
  by rewrite !bind_cons, fmap_app, IH.
Qed.

Lemma StronglySorted_seq_lt a n : StronglySorted lt (seq a n).
Proof.
  revert a. induction n as [| n IH]; intros a; simpl; constructor; [apply IH |].
  apply Forall_forall. intros x Hx%elem_of_seq. lia.
Qed.

Lemma ravel_lower_F_sorted n :
  StronglySorted lt (Np.ravel_multi_index_F (lower_F n) (n, n)).
Proof.
  unfold Np.ravel_multi_index_F, lower_F. simpl.
  rewrite fmap_bind_list.
  apply (StronglySorted_bind_blocks _ (λ j, j * n) (λ j, j * n + n)).
  - intros j _. rewrite <- list_fmap_compose.
    apply (StronglySorted_fmap _ lt lt); [| apply StronglySorted_seq_lt].
    intros i1 i2 ?. simpl. lia.
  - intros j y Hj Hy. rewrite <- list_fmap_compose in Hy.
    apply list_elem_of_fmap in Hy as (i & -> & Hi). simpl.
    apply elem_of_seq in Hi, Hj. lia.
  - eapply StronglySorted_weaken; [| apply StronglySorted_seq_lt].
    intros j1 j2 ?. simpl in *. nia.
Qed.

Lemma sort_ravel_tril_indices n :
  Np.sort (Np.ravel_multi_index_F (Np.tril_indices n 0) (n, n))
  = Np.ravel_multi_index_F (lower_F n) (n, n).
Proof.
  unfold Np.sort. apply (StronglySorted_unique le).
  - apply StronglySorted_merge_sort; apply _.
  - eapply StronglySorted_weaken; [| apply ravel_lower_F_sorted].
    intros; simpl in *; lia.
  - rewrite merge_sort_Permutation. unfold Np.ravel_multi_index_F.
    by rewrite tril_indices_lower_F.
Qed.

(** ** Dense arrays: shape, reads and writes *)

Lemma zeros_has_shape n m : has_shape n m (Np.zeros n m).
Proof.
  split; [apply length_replicate |].
  apply Forall_replicate, length_replicate.
Qed.

Lemma get2_zeros n m p : Np.get2 (Np.zeros n m) p = 0%R.
Proof.
  unfold Np.get2, Np.zeros.
  destruct (replicate n (replicate m 0%R) !! p.1) as [row |] eqn:E; [| done].
  apply lookup_replicate in E as [-> _]. simpl.
  destruct (replicate m 0%R !! p.2) as [x |] eqn:E'; [| done].
  by apply lookup_replicate in E' as [-> _].
Qed.

Lemma set2_has_shape n m a p v :
  has_shape n m a → has_shape n m (Np.set2 a p v).
Proof.
  intros [Hlen Hrows]. split; unfold Np.set2.
  - by rewrite length_alter.
  - apply Forall_alter; [done |]. intros row _ Hrow.
    by rewrite length_insert.
Qed.

Lemma get2_set2 n m a p q v :
  has_shape n m a → p.1 < n → p.2 < m →
  Np.get2 (Np.set2 a p v) q = if decide (q = p) then v else Np.get2 a q.
Proof.
  intros [Hlen Hrows] H1 H2. unfold Np.get2, Np.set2.
  destruct p as [i j], q as [i' j']. simpl in *.
  rewrite list_lookup_alter.
  destruct (decide (i = i')) as [<- |].
  - destruct (lookup_lt_is_Some_2 a i) as [row Hrow]; [lia |].
    rewrite Hrow. simpl.
    assert (length row = m) by (eapply Forall_lookup_1 in Hrows; eauto).
    rewrite list_lookup_insert.
    destruct (decide (j = j')) as [<- |].
    + rewrite decide_True by (split; [done | lia]).
      by rewrite decide_True.
    + rewrite decide_False by tauto.
      by rewrite decide_False by congruence.
  - by rewrite decide_False by congruence.
Qed.

Lemma fill_at_has_shape n m a idx c :
  has_shape n m a → has_shape n m (Np.fill_at a idx c).
Proof.
  unfold Np.fill_at. revert a. induction idx as [| p idx IH]; intros a Ha; [done |].
  simpl. apply IH. by apply set2_has_shape.
Qed.

Lemma get2_fill_at n m a idx c q :
  has_shape n m a → Forall (λ p, p.1 < n ∧ p.2 < m) idx →
  Np.get2 (Np.fill_at a idx c) q
  = if decide (q ∈ idx) then c else Np.get2 a q.
Proof.
  unfold Np.fill_at. revert a.
  induction idx as [| p idx IH]; intros a Ha Hidx.
  - by destruct (decide (q ∈ [])) as [H%elem_of_nil |].
  - apply Forall_cons in Hidx as [[Hp1 Hp2] Hidx]. simpl.
    rewrite IH by (try apply set2_has_shape; done).
    rewrite (get2_set2 n m) by done.
    destruct (decide (q ∈ idx)) as [Hin | Hin].
    + rewrite decide_True; [done | by right].
    + destruct (decide (q = p)) as [-> | Hne].
      * rewrite decide_True; [done | by left].
      * rewrite decide_False; [done |]. by intros [? | ?]%elem_of_cons.
Qed.

(** ** The values of the forward matrix *)

Lemma inv_sqrt2_pos : (0 < 1 / sqrt 2)%R.
Proof. apply Rdiv_lt_0_compat; [lra | apply sqrt_lt_R0; lra]. Qed.

Lemma coef_nonzero p : coef p ≠ 0%R.
Proof.
  unfold coef. pose proof inv_sqrt2_pos. case_decide; lra.
Qed.

Lemma get2_val_matrix n i j :
  i < n → j < n →
  Np.get2 (val_matrix n) (i, j) = if decide (j ≤ i) then coef (i, j) else 0%R.
Proof.
  intros Hi Hj. unfold val_matrix, Np.fill_diagonal.
  rewrite (get2_fill_at n n).
  2:{ apply fill_at_has_shape, zeros_has_shape. }
  2:{ apply Forall_fmap, Forall_forall. intros x Hx%elem_of_seq. simpl. lia. }
  rewrite (get2_fill_at n n).
  2:{ apply zeros_has_shape. }
  2:{ apply Forall_forall. intros p Hp%elem_of_tril_indices. lia. }
  rewrite get2_zeros. unfold coef. simpl.
  destruct (decide (i = j)) as [<- | Hne].
  - rewrite decide_True.
    + by rewrite decide_True by lia.
    + apply list_elem_of_fmap. exists i. split; [done | apply elem_of_seq; lia].
  - rewrite decide_False.
    2:{ intros (x & Hx & _)%list_elem_of_fmap. congruence. }
    destruct (decide (j ≤ i)).
    + rewrite decide_True; [done |]. apply elem_of_tril_indices. simpl. lia.
    + rewrite decide_False; [done |].
      intros Hin%elem_of_tril_indices. simpl in Hin. lia.
Qed.

Lemma filter_bind_list {T U} (P : U → Prop) `{∀ x, Decision (P x)}
    (f : T → list U) (l : list T) :
  filter P (l ≫= f) = l ≫= λ x, filter P (f x).
Proof.
  induction l as [| x l IH]; [reflexivity |].
  by rewrite !bind_cons, filter_app, IH.
Qed.

Lemma filter_all {T} (P : T → Prop) `{∀ x, Decision (P x)} (l : list T) :
  Forall P l → filter P l = l.
Proof.
  induction 1 as [| x l Hx _ IH]; [reflexivity |].
  by rewrite filter_cons_True, IH.
Qed.

Lemma filter_none {T} (P : T → Prop) `{∀ x, Decision (P x)} (l : list T) :
  Forall (λ x, ¬ P x) l → filter P l = [].
Proof.
  induction 1 as [| x l Hx _ IH]; [reflexivity |].
  by rewrite filter_cons_False, IH.
Qed.

Lemma nonzero_values_val_matrix n :
  Np.nonzero_values (Np.ravel_F n n (val_matrix n)) = coef <$> lower_F n.
Proof.
  unfold Np.nonzero_values, Np.ravel_F, lower_F.
  rewrite filter_bind_list, fmap_bind_list.
  apply Forall_bind_ext, Forall_forall. intros j Hj%elem_of_seq.
  replace (seq 0 n) with (seq 0 j ++ seq j (n - j)).
  2:{ rewrite <- seq_app. f_equal. lia. }
  rewrite fmap_app, filter_app, filter_none, filter_all.
  - simpl. rewrite <- list_fmap_compose. apply list_fmap_ext.
    intros k i Hi%lookup_seq. simpl.
    rewrite get2_val_matrix by lia. by rewrite decide_True by lia.
  - apply Forall_fmap, Forall_forall. intros i Hi%elem_of_seq. simpl.
    rewrite get2_val_matrix by lia. rewrite decide_True by lia.
    apply coef_nonzero.
  - apply Forall_fmap, Forall_forall. intros i Hi%elem_of_seq. simpl.
    rewrite get2_val_matrix by lia. rewrite decide_False by lia. tauto.
Qed.

(** ** The forward matrix in closed form *)

Lemma tril_indices_rows n :
  Np.tril_indices n 0 = i ← seq 0 n; (λ j, (i, j)) <$> seq 0 (S i).
Proof.
  unfold Np.tril_indices. apply Forall_bind_ext, Forall_forall.
  intros i Hi%elem_of_seq.
  replace (seq 0 n) with (seq 0 (S i) ++ seq (S i) (n - S i)).
  2:{ rewrite <- seq_app. f_equal. lia. }
  rewrite filter_app, filter_all, filter_none.
  - rewrite app_nil_r. induction (seq 0 (S i)); [done | by f_equal/=].
  - apply Forall_forall. intros j Hj%elem_of_seq. lia.
  - apply Forall_forall. intros j Hj%elem_of_seq. lia.
Qed.

Lemma triu_indices_lower_F n :
  Np.triu_indices n 0 = prod_swap <$> lower_F n.
Proof.
  unfold Np.triu_indices, lower_F. rewrite fmap_bind_list.
  apply Forall_bind_ext, Forall_forall. intros i Hi%elem_of_seq.
  replace (seq 0 n) with (seq 0 i ++ seq i (n - i)).
  2:{ rewrite <- seq_app. f_equal. lia. }
  rewrite filter_app, filter_none, filter_all.
  - simpl. induction (seq i (n - i)); [done | by f_equal/=].
  - apply Forall_forall. intros j Hj%elem_of_seq. lia.
  - apply Forall_forall. intros j Hj%elem_of_seq. lia.
Qed.

Lemma length_tril_indices n : length (Np.tril_indices n 0) = n * (n + 1) / 2.
Proof.
  rewrite tril_indices_rows.
  assert (2 * length (seq 0 n ≫= λ i, (λ j, (i, j)) <$> seq 0 (S i))
          = n * (n + 1)) as H.
  { induction n as [| n IH]; [reflexivity |].
    rewrite seq_S, bind_app, length_app, bind_singleton.
    rewrite length_fmap, length_seq. simpl in *. lia. }
  rewrite <- H, Nat.mul_comm. by rewrite Nat.div_mul.
Qed.

Lemma length_lower_F n : length (lower_F n) = n * (n + 1) / 2.
Proof. by rewrite <- tril_indices_lower_F, length_tril_indices. Qed.

Lemma length_triu_indices n : length (Np.triu_indices n 0) = n * (n + 1) / 2.
Proof. by rewrite triu_indices_lower_F, length_fmap, length_lower_F. Qed.

Lemma scaled_lower_tri_coo n :
  scaled_lower_tri n
  = Some {| Sp.shape := (n * (n + 1) / 2, n * n); Sp.coo := lower_tri_coo n |}.
Proof.
  unfold scaled_lower_tri. fold (val_matrix n).
  rewrite nonzero_values_val_matrix, sort_ravel_tril_indices.
  unfold Sp.csc_matrix, Np.arange, Np.ravel_multi_index_F. cbn [fst].
  rewrite decide_True.
  - unfold lower_tri_coo. rewrite length_lower_F. by rewrite Nat.sub_0_r.
  - rewrite !length_fmap, length_seq, length_lower_F. lia.
Qed.

Lemma sum_R_single_row {T} (f : T → nat) (g : T → R) (xx : nat → R)
    (L : list T) (s r : nat) :
  Sp.sum_R ((λ e : nat * nat * R,
               if decide (e.1.1 = r) then (e.2 * xx e.1.2)%R else 0%R)
            <$> zip (zip (seq s (length L)) (f <$> L)) (g <$> L))
  = match L !! (r - s) with
    | Some p => if decide (s ≤ r) then (g p * xx (f p))%R else 0%R
    | None => 0%R
    end.
Proof.
  revert s. induction L as [| p L IH]; intros s; [reflexivity |].
  simpl. rewrite IH.
  destruct (decide (s = r)) as [-> | Hne].
  - rewrite Nat.sub_diag. simpl. rewrite decide_True by lia.
    replace (r - S r) with 0 by lia.
    destruct (L !! 0); [rewrite decide_False by lia |]; lra.
  - destruct (decide (s ≤ r)).
    + replace (r - s) with (S (r - S s)) by lia. simpl.
      destruct (L !! (r - S s)); [rewrite decide_True by lia |]; lra.
    + replace (r - s) with 0 by lia. simpl.
      destruct (L !! (r - S s)); [rewrite decide_False by lia |]; lra.
Qed.

Lemma lookup_bind_blocks {T U} (f : T → list U) (l : list T) (n k i : nat) :
  (∀ x, length (f x) = n) → i < n →
  (l ≫= f) !! (i + k * n) = l !! k ≫= λ x, f x !! i.
Proof.
  intros Hf Hi. revert k. induction l as [| x l IH]; intros k; [done |].
  rewrite bind_cons. destruct k as [| k].
  - rewrite lookup_app_l by (rewrite Hf; lia). simpl. f_equal. lia.
  - rewrite lookup_app_r by (rewrite Hf; lia). rewrite Hf. simpl.
    rewrite <- IH. f_equal. lia.
Qed.

Lemma lookup_ravel_F n m a i j :
  i < n → j < m → Np.ravel_F n m a !! (i + j * n) = Some (Np.get2 a (i, j)).
Proof.
  intros Hi Hj. unfold Np.ravel_F. rewrite lookup_bind_blocks.
  - rewrite lookup_seq_lt by done. simpl.
    rewrite list_lookup_fmap, lookup_seq_lt by done. done.
  - intros x. by rewrite length_fmap, length_seq.
  - done.
Qed.

(** The forward matrix applied to a column-major flattening picks the
    lower-triangular entries in column-major order, each times its
    coefficient. *)
Lemma matvec_lower_tri_coo n (M : Np.ndarray2) :
  Sp.matvec {| Sp.shape := (n * (n + 1) / 2, n * n);
               Sp.coo := lower_tri_coo n |} (Np.ravel_F n n M)
  = (λ p, (coef p * Np.get2 M p)%R) <$> lower_F n.
Proof.
  unfold Sp.matvec, lower_tri_coo. cbn [Sp.shape Sp.coo fst].
  rewrite <- length_lower_F.
  apply list_eq. intros k. rewrite !list_lookup_fmap.
  destruct (decide (k < length (lower_F n))) as [Hk | Hk].
  - rewrite lookup_seq_lt by done. simpl.
    rewrite (sum_R_single_row _ _
               (λ c, default 0%R (Np.ravel_F n n M !! c))).
    rewrite Nat.sub_0_r.
    destruct (lookup_lt_is_Some_2 _ _ Hk) as [p Hp]. rewrite Hp. simpl.
    apply list_elem_of_lookup_2, elem_of_lower_F in Hp.
    destruct p as [i j]. simpl in *. by rewrite lookup_ravel_F by lia.
  - rewrite lookup_seq_ge by lia. by rewrite lookup_ge_None_2 by lia.
Qed.

Lemma psd_format_mat_scaled_lower_tri n :
  SCS.psd_format_mat n = scaled_lower_tri n.
Proof. reflexivity. Qed.

Lemma forward_vectorize_closed n M :
  forward_vectorize n M
  = Some ((λ p, (coef p * Np.get2 M p)%R) <$> lower_F n).
Proof.
  unfold forward_vectorize.
  rewrite psd_format_mat_scaled_lower_tri, scaled_lower_tri_coo.
  cbn [mbind option_bind]. by rewrite matvec_lower_tri_coo.
Qed.

Lemma get2_symmetric_sum n M i j :
  i < n → j < n →
  Np.get2 (symmetric_sum n M) (i, j)
  = (Np.get2 M (i, j) + Np.get2 M (j, i))%R.
Proof.
  intros Hi Hj. unfold symmetric_sum, Np.get2 at 1. simpl.
  rewrite list_lookup_fmap, lookup_seq_lt by done. simpl.
  by rewrite list_lookup_fmap, lookup_seq_lt by done.
Qed.

Lemma sqrt2_sqr : (sqrt 2 * sqrt 2 = 2)%R.
Proof. apply sqrt_sqrt. lra. Qed.

Lemma sqrt2_pos : (0 < sqrt 2)%R.
Proof. apply sqrt_lt_R0. lra. Qed.

Lemma inv_sqrt2_eq : (1 / sqrt 2 = sqrt 2 / 2)%R.
Proof.
  pose proof sqrt2_sqr. pose proof sqrt2_pos.
  field_simplify_eq; [lra | lra].
Qed.

Lemma forward_vectorize_sym_closed n M :
  symmetric n M →
  forward_vectorize_sym n M
  = Some ((λ p, if decide (p.1 = p.2) then Np.get2 M p
                else (sqrt 2 * Np.get2 M p)%R) <$> lower_F n).
Proof.
  intros Hsym. unfold forward_vectorize_sym.
  rewrite forward_vectorize_closed. f_equal. apply list_fmap_ext.
  intros k [i j] Hp. apply list_elem_of_lookup_2, elem_of_lower_F in Hp.
  simpl in Hp. rewrite get2_symmetric_sum by lia.
  rewrite <- (Hsym i j) by lia. unfold coef. simpl.
  case_decide; [lra |]. rewrite inv_sqrt2_eq. lra.
Qed.

(** ** Evaluations of [tri_to_full] *)

Lemma tri_to_full_3 (a b c d e f : R) :
  tri_to_full [a; b; c; d; e; f] 3
  = Some [a; b / sqrt 2; d / sqrt 2;
          b / sqrt 2; c; e / sqrt 2;
          c / sqrt 2; e / sqrt 2; f]%R.
Proof. eval_arrays. reflexivity. Qed.

Lemma tri_to_full_2 (a b c : R) :
  tri_to_full [a; b; c] 2 = Some [a; b / sqrt 2; b / sqrt 2; c]%R.
Proof. eval_arrays. reflexivity. Qed.

Lemma tri_to_full_1 (a : R) : tri_to_full [a] 1 = Some [a].
Proof. eval_arrays. reflexivity. Qed.

Lemma tri_to_full_short : tri_to_full [1; 2]%R 2 = None.
Proof. eval_arrays. reflexivity. Qed.

Lemma mirrored_expansion_3 (a b c d e f : R) :
  mirrored_expansion [a; b; c; d; e; f] 3
  = [a; b / sqrt 2; c / sqrt 2;
     b / sqrt 2; d; e / sqrt 2;
     c / sqrt 2; e / sqrt 2; f]%R.
Proof. eval_arrays. reflexivity. Qed.

Lemma mirrored_expansion_2 (a b c : R) :
  mirrored_expansion [a; b; c] 2 = [a; b / sqrt 2; b / sqrt 2; c]%R.
Proof. eval_arrays. reflexivity. Qed.

Lemma lower_F_3 : lower_F 3 = [(0,0); (1,0); (2,0); (1,1); (2,1); (2,2)].
Proof. reflexivity. Qed.

Lemma lower_F_2 : lower_F 2 = [(0,0); (1,0); (1,1)].
Proof. reflexivity. Qed.

Lemma symmetric_eye3 : symmetric 3 eye3.
Proof.
  intros i j Hi Hj.
  destruct i as [| [| [| i]]], j as [| [| [| j]]]; try lia; reflexivity.
Qed.

Lemma forward_sym_eye3 :
  forward_vectorize_sym 3 eye3 = Some [1; 0; 0; 1; 0; 1]%R.
Proof.
  rewrite forward_vectorize_sym_closed by apply symmetric_eye3.
  rewrite lower_F_3. f_equal. eval_arrays.
  repeat (f_equal; try lra).
Qed.

(** ** Status mapping and inversion *)

Lemma STATUS_MAP_dom (str : string) :
  is_Some (SCS.STATUS_MAP !! str) ↔ str ∈ solver_statuses.
Proof.
  unfold SCS.STATUS_MAP, solver_statuses. split.
  - intros [st Hst]. apply elem_of_list_to_map_2 in Hst.
    apply (list_elem_of_fmap_2 fst) in Hst. exact Hst.
  - intros Hin. repeat (apply elem_of_cons in Hin as [-> | Hin]);
      [vm_compute; eauto .. | by apply elem_of_nil in Hin].
Qed.

Section inversion.

Context (const_to_matrix : list R → list R) (DUAL_VAR_ID : string).

Local Abbreviation invert := (SCS.invert const_to_matrix DUAL_VAR_ID).

Lemma invert_present sol inv st :
  SCS.STATUS_MAP !! info_status (info sol) = Some st →
  st ∈ s.SOLUTION_PRESENT →
  invert sol inv =
    Some {| status := st;
            opt_val := Some (pobj (info sol) + SCS.OFFSET inv)%R;
            primal_vars := {[ SCS.VAR_ID inv := const_to_matrix (res_x sol) ]};
            dual_vars := {[ DUAL_VAR_ID := const_to_matrix (res_y sol) ]};
            attr := <[s.NUM_ITERS := PyInt (iter (info sol))]>
                      (<[s.SETUP_TIME := PyFloat (setupTime (info sol))]>
                         (<[s.SOLVE_TIME := PyFloat (solveTime (info sol))]> ∅))
         |}.
Proof.
  intros Hst Hin. unfold SCS.invert. rewrite Hst. simpl.
  by rewrite decide_True.
Qed.

Lemma invert_absent sol inv st :
  SCS.STATUS_MAP !! info_status (info sol) = Some st →
  st ∉ s.SOLUTION_PRESENT →
  invert sol inv = Some (failure_solution st).
Proof.
  intros Hst Hin. unfold SCS.invert. rewrite Hst. simpl.
  by rewrite decide_False.
Qed.

Lemma invert_unknown sol inv :
  SCS.STATUS_MAP !! info_status (info sol) = None → invert sol inv = None.
Proof. intros Hst. unfold SCS.invert. by rewrite Hst. Qed.

Lemma failure_status_lookup (str : string) :
  str ∈ failure_statuses →
  ∃ st, SCS.STATUS_MAP !! str = Some st ∧ st ∉ s.SOLUTION_PRESENT.
Proof.
  unfold failure_statuses. intros Hin.
  repeat (apply elem_of_cons in Hin as [-> | Hin]);
    [ eexists; split; [vm_compute; reflexivity | ];
      unfold s.SOLUTION_PRESENT; rewrite !elem_of_cons, elem_of_nil;
      intros [? | [? | []]]; discriminate .. | by apply elem_of_nil in Hin ].
Qed.

(** C5: [STATUS_MAP] is defined on exactly the nine solver status strings
    and sends each to one caller-level status; [invert] populates the
    primal and dual maps for "Solved" and "Solved/Inaccurate" and returns,
    for each of the seven other status strings, the failure record that
    carries the mapped status and empty primal and dual maps. *)
Theorem status_map_and_invert_cases :
  (∀ str : string, is_Some (SCS.STATUS_MAP !! str) ↔ str ∈ solver_statuses)
  ∧ NoDup solver_statuses ∧ length solver_statuses = 9
  ∧ SCS.STATUS_MAP !! "Solved" = Some s.OPTIMAL
  ∧ SCS.STATUS_MAP !! "Solved/Inaccurate" = Some s.OPTIMAL_INACCURATE
  ∧ SCS.STATUS_MAP !! "Unbounded" = Some s.UNBOUNDED
  ∧ SCS.STATUS_MAP !! "Unbounded/Inaccurate" = Some s.UNBOUNDED_INACCURATE
  ∧ SCS.STATUS_MAP !! "Infeasible" = Some s.INFEASIBLE
  ∧ SCS.STATUS_MAP !! "Infeasible/Inaccurate" = Some s.INFEASIBLE_INACCURATE
  ∧ SCS.STATUS_MAP !! "Failure" = Some s.SOLVER_ERROR
  ∧ SCS.STATUS_MAP !! "Indeterminate" = Some s.SOLVER_ERROR
  ∧ SCS.STATUS_MAP !! "Interrupted" = Some s.SOLVER_ERROR
  ∧ (∀ sol inv,
       info_status (info sol) = "Solved"
       ∨ info_status (info sol) = "Solved/Inaccurate" →
       ∃ r, invert sol inv = Some r
            ∧ SCS.STATUS_MAP !! info_status (info sol) = Some (status r)
            ∧ primal_vars r
              = {[ SCS.VAR_ID inv := const_to_matrix (res_x sol) ]}
            ∧ dual_vars r = {[ DUAL_VAR_ID := const_to_matrix (res_y sol) ]})
  ∧ (∀ sol inv,
       info_status (info sol) ∈ failure_statuses →
       ∃ r, invert sol inv = Some r
            ∧ r = failure_solution (status r)
            ∧ SCS.STATUS_MAP !! info_status (info sol) = Some (status r)
            ∧ primal_vars r = ∅ ∧ dual_vars r = ∅).
Proof.
  split; [exact STATUS_MAP_dom |].
  split; [apply (bool_decide_unpack _); vm_compute; exact I |].
  do 10 (split; [reflexivity |]).
  split.
  - intros sol inv Hs.
    assert (∃ st, SCS.STATUS_MAP !! info_status (info sol) = Some st
                  ∧ st ∈ s.SOLUTION_PRESENT) as (st & Hst & Hin).
    { unfold s.SOLUTION_PRESENT.
      destruct Hs as [-> | ->]; eexists; (split; [vm_compute; reflexivity |]);
        rewrite !elem_of_cons; auto. }
    eexists. split; [by apply invert_present |]. by simpl.
  - intros sol inv Hs.
    destruct (failure_status_lookup _ Hs) as (st & Hst & Hin).
    exists (failure_solution st). split; [by apply invert_absent |]. by simpl.
Qed.

End inversion.

(** The premises of the two cases are met by a raw result reporting
    "Solved" and by one reporting "Infeasible". *)
Lemma status_map_and_invert_cases_witness :
  ∃ r1 r2,
    SCS.invert (λ v : list R, v) "dual_var_id" solved_result
      {| SCS.VAR_ID := 7; SCS.inv_DIMS := Build_ConeDims 0 1 [] 0 [];
         SCS.OFFSET := 3 |} = Some r1
    ∧ status r1 = s.OPTIMAL
    ∧ SCS.invert (λ v : list R, v) "dual_var_id" infeasible_result
        {| SCS.VAR_ID := 7; SCS.inv_DIMS := Build_ConeDims 0 1 [] 0 [];
           SCS.OFFSET := 3 |} = Some r2
    ∧ r2 = failure_solution s.INFEASIBLE.
Proof.
  destruct (status_map_and_invert_cases (λ v : list R, v) "dual_var_id")
    as (_ & _ & _ & _ & _ & _ & _ & _ & _ & _ & _ & _ & Hok & Hfail).
  destruct (Hok solved_result
    {| SCS.VAR_ID := 7; SCS.inv_DIMS := Build_ConeDims 0 1 [] 0 [];
       SCS.OFFSET := 3 |} (or_introl eq_refl)) as (r1 & H1 & Hs1 & _).
  destruct (Hfail infeasible_result
    {| SCS.VAR_ID := 7; SCS.inv_DIMS := Build_ConeDims 0 1 [] 0 [];
       SCS.OFFSET := 3 |}) as (r2 & H2 & Hr2 & Hs2 & _).
  { unfold failure_statuses; simpl. do 2 right. left. }
  exists r1, r2. split; [exact H1 |]. split.
  - change (SCS.STATUS_MAP !! info_status (info solved_result))
      with (Some s.OPTIMAL) in Hs1.
    congruence.
  - split; [exact H2 |].
    change (SCS.STATUS_MAP !! info_status (info infeasible_result))
      with (Some s.INFEASIBLE) in Hs2.
    rewrite Hr2. congruence.
Defined.

(** ** Diagnostics on the failure path *)

Section diagnostics.

Context (const_to_matrix : list R → list R) (DUAL_VAR_ID : string).

Local Abbreviation invert := (SCS.invert const_to_matrix DUAL_VAR_ID).

(** On a usable status the attribute bag carries the three diagnostics
    of the raw result. *)
Lemma invert_present_attr sol inv st :
  SCS.STATUS_MAP !! info_status (info sol) = Some st →
  st ∈ s.SOLUTION_PRESENT →
  ∃ r, invert sol inv = Some r
       ∧ attr r !! s.SOLVE_TIME = Some (PyFloat (solveTime (info sol)))
       ∧ attr r !! s.SETUP_TIME = Some (PyFloat (setupTime (info sol)))
       ∧ attr r !! s.NUM_ITERS = Some (PyInt (iter (info sol))).
Proof.
  intros Hst Hin. eexists. split; [by apply invert_present |].
  simpl. unfold s.SOLVE_TIME, s.SETUP_TIME, s.NUM_ITERS.
  by simplify_map_eq.
Qed.

(** On the failure path the result depends on the status string alone:
    two raw results that differ only in their diagnostics are inverted
    to the same record. *)
Lemma invert_failure_ignores_info sol sol' inv :
  info_status (info sol) ∈ failure_statuses →
  info_status (info sol') = info_status (info sol) →
  invert sol' inv = invert sol inv.
Proof.
  intros Hin Heq.
  destruct (failure_status_lookup _ Hin) as (st & Hst & Hno).
  rewrite (invert_absent _ _ sol inv st Hst Hno).
  apply invert_absent; [by rewrite Heq | done].
Qed.

(** C6: at a raw result reporting "Infeasible" with solve time 1, setup
    time 2 and 3 iterations, [invert] returns the failure record built
    from the status alone; its attribute bag holds none of the three
    diagnostics. *)
Theorem invert_infeasible_loses_diagnostics (inv : SCS.inverse_data) :
  ∃ r, invert infeasible_result inv = Some r
       ∧ status r = s.INFEASIBLE
       ∧ attr r !! s.SOLVE_TIME = None
       ∧ attr r !! s.SETUP_TIME = None
       ∧ attr r !! s.NUM_ITERS = None
       ∧ attr r !! s.SOLVE_TIME
         ≠ Some (PyFloat (solveTime (info infeasible_result))).
Proof.
  exists (failure_solution s.INFEASIBLE). split.
  - apply invert_absent; [reflexivity |].
    unfold s.SOLUTION_PRESENT. rewrite !elem_of_cons, elem_of_nil.
    intros [? | [? | []]]; discriminate.
  - simpl. by rewrite !lookup_empty.
Qed.

End diagnostics.

(** ** Formatting: splitting the homogenised data *)

Lemma removelast_snoc {T} (l : list T) (x : T) : removelast (l ++ [x]) = l.
Proof.
  induction l as [| y l IH]; [reflexivity |].
  simpl. rewrite IH. by destruct l.
Qed.



Section formatting.

Context {problem : Type}.
Context (x_id : problem → nat) (cone_dims : problem → ConeDims).
Context (prob_c : problem → list R) (prob_A : problem → Np.ndarray2).
Context (const_to_matrix : list R → list R) (DUAL_VAR_ID : string).

Local Abbreviation apply := (SCS.apply x_id cone_dims prob_c prob_A).
Local Abbreviation invert := (SCS.invert const_to_matrix DUAL_VAR_ID).


End formatting.


(** ** Solver invocation: warm start, cache and options *)

Section invocation.

Context (name : string) (scs_solve : scs_call → scs_result).

Local Abbreviation solve_via_data := (SCS.solve_via_data name scs_solve).

(** With a ['verbose'] key in the option map the call raises: the solver
    is not called, nothing is returned and the cache is left as it was;
    the option map has its ['eps'] entry all the same. *)
Lemma solve_via_data_raises d warm verbose opts cache :
  is_Some (opts !! "verbose") →
  solve_via_data d warm verbose opts cache
  = {| SCS.results := None;
       SCS.opts_after :=
         <["eps" := default (PyFloat 1e-4) (opts !! "eps")]> opts;
       SCS.cache_after := cache;
       SCS.request := None |}.
Proof.
  intros [v Hv]. unfold SCS.solve_via_data.
  by rewrite lookup_insert_ne, Hv.
Qed.

Lemma solve_via_data_calls d warm verbose opts cache :
  opts !! "verbose" = None →
  ∃ req,
    SCS.request (solve_via_data d warm verbose opts cache) = Some req
    ∧ SCS.results (solve_via_data d warm verbose opts cache)
      = Some (scs_solve req)
    ∧ SCS.cache_after (solve_via_data d warm verbose opts cache)
      = (λ c, <[name := scs_solve req]> c) <$> cache
    ∧ call_cones req = dims_to_solver_dict (SCS.DIMS d)
    ∧ call_verbose req = verbose
    ∧ call_opts req
      = <["eps" := default (PyFloat 1e-4) (opts !! "eps")]> opts
    ∧ call_args req
      = match warm, cached name cache with
        | true, Some prev =>
            <["s" := Vector (res_s prev)]>
              (<["y" := Vector (res_y prev)]>
                 (<["x" := Vector (res_x prev)]>
                    (<["c" := Vector (SCS.C d)]>
                       (<["b" := Vector (SCS.B d)]>
                          {["A" := Matrix (SCS.A d)]}))))
        | _, _ =>
            <["c" := Vector (SCS.C d)]>
              (<["b" := Vector (SCS.B d)]> {["A" := Matrix (SCS.A d)]})
        end.
Proof.
  intros Hv. unfold SCS.solve_via_data, cached.
  rewrite lookup_insert_ne, Hv by done.
  eexists. split; [reflexivity |]. cbn [SCS.results SCS.cache_after].
  split; [reflexivity |]. split; [by destruct cache |].
  cbn [call_cones call_verbose call_opts call_args].
  repeat (split; [reflexivity |]).
  destruct warm; [| done]. by case_match.
Qed.

Lemma opts_after_insert d warm verbose opts cache :
  SCS.opts_after (solve_via_data d warm verbose opts cache)
  = <["eps" := default (PyFloat 1e-4) (opts !! "eps")]> opts.
Proof.
  unfold SCS.solve_via_data.
  by destruct (<["eps" := _]> opts !! "verbose").
Qed.

(** C8 (amended): for every call whose option map has no ['verbose']
    key, the solver is called once; its request holds the cached
    [(x, y, s)] triple exactly when the warm-start flag is set, a cache
    was supplied and it has an entry under the solver's name, and holds
    none of the three keys otherwise; whenever a cache was supplied, it
    ends with the raw result stored under the solver's name in place of
    any previous entry. *)
Theorem warm_start_and_cache_update
    (d : SCS.data) (warm verbose : bool) (opts : gmap string pyval)
    (solver_cache : option (gmap string scs_result)) :
  opts !! "verbose" = None →
  let out := solve_via_data d warm verbose opts solver_cache in
  ∃ req res,
    SCS.request out = Some req
    ∧ SCS.results out = Some res
    ∧ res = scs_solve req
    ∧ (∀ cache prev,
         warm = true → solver_cache = Some cache → cache !! name = Some prev →
         call_args req !! "x" = Some (Vector (res_x prev))
         ∧ call_args req !! "y" = Some (Vector (res_y prev))
         ∧ call_args req !! "s" = Some (Vector (res_s prev)))
    ∧ (¬ (warm = true
          ∧ ∃ cache, solver_cache = Some cache ∧ is_Some (cache !! name)) →
       call_args req !! "x" = None
       ∧ call_args req !! "y" = None
       ∧ call_args req !! "s" = None)
    ∧ (∀ cache,
         solver_cache = Some cache →
         ∃ cache',
           SCS.cache_after out = Some cache'
           ∧ cache' !! name = Some res
           ∧ ∀ other, other ≠ name → cache' !! other = cache !! other)
    ∧ (solver_cache = None → SCS.cache_after out = None).
Proof.
  intros Hv out.
  destruct (solve_via_data_calls d warm verbose opts solver_cache Hv)
    as (req & Hreq & Hres & Hcache & _ & _ & _ & Hargs).
  exists req, (scs_solve req). subst out.
  split; [exact Hreq |]. split; [exact Hres |]. split; [reflexivity |].
  split; [| split; [| split]].
  - intros cache prev -> -> Hprev. rewrite Hargs. unfold cached.
    cbn [mbind option_bind]. rewrite Hprev. by simplify_map_eq.
  - intros Hno. rewrite Hargs.
    assert (warm = false ∨ cached name solver_cache = None) as Hcold.
    { destruct warm; [right | by left].
      unfold cached. destruct solver_cache as [cache |]; [| done].
      cbn [mbind option_bind].
      destruct (cache !! name) eqn:E; [| done].
      exfalso. apply Hno. split; [done |]. exists cache. by rewrite E. }
    destruct Hcold as [-> | ->]; [| destruct warm]; by simplify_map_eq.
  - intros cache ->. rewrite Hcache. eexists. split; [reflexivity |]. split.
    + by rewrite lookup_insert_eq.
    + intros other Hne. by rewrite lookup_insert_ne.
  - intros ->. by rewrite Hcache.
Qed.

(** C9 (amended): for every call whose option map has no ['verbose']
    key, the [eps] option handed to the solver is the caller's value
    when the option map has an ['eps'] key, and [1e-4] otherwise. *)
Theorem eps_passed_to_solver
    (d : SCS.data) (warm verbose : bool) (opts : gmap string pyval)
    (solver_cache : option (gmap string scs_result)) :
  opts !! "verbose" = None →
  ∃ req,
    SCS.request (solve_via_data d warm verbose opts solver_cache) = Some req
    ∧ call_opts req !! "eps"
      = Some match opts !! "eps" with
             | Some v => v
             | None => PyFloat 1e-4
             end.
Proof.
  intros Hv.
  destruct (solve_via_data_calls d warm verbose opts solver_cache Hv)
    as (req & Hreq & _ & _ & _ & _ & Hopts & _).
  exists req. split; [exact Hreq |].
  rewrite Hopts, lookup_insert_eq. by destruct (opts !! "eps").
Qed.

(** C10: the caller's option map, as the call leaves it, has an ['eps']
    key holding the caller's value if there was one and [1e-4] if not,
    and agrees with the map the caller passed on every other key. *)
Theorem solver_opts_mutated_only_at_eps
    (d : SCS.data) (warm verbose : bool) (opts : gmap string pyval)
    (solver_cache : option (gmap string scs_result)) :
  let opts' :=
    SCS.opts_after (solve_via_data d warm verbose opts solver_cache) in
  opts' !! "eps" = Some (default (PyFloat 1e-4) (opts !! "eps"))
  ∧ (∀ key : string, key ≠ "eps" → opts' !! key = opts !! key)
  ∧ dom opts' = {["eps"]} ∪ dom opts.
Proof.
  rewrite opts_after_insert. split; [by rewrite lookup_insert_eq |].
  split.
  - intros key Hne. by rewrite lookup_insert_ne.
  - by rewrite dom_insert_L.
Qed.

End invocation.

(** C8, as stated, fails on an option map with a ['verbose'] key: the
    warm-start flag is set and the cache has an entry under the solver's
    name, yet the solver is given nothing, and the cache keeps its
    previous entry. *)
Lemma verbose_option_blocks_warm_start :
  SCS.request
    (SCS.solve_via_data "SCS" (λ _, infeasible_result) lp_data true false
       {[ "verbose" := PyBool true ]} (Some {[ "SCS" := solved_result ]}))
  = None
  ∧ SCS.results
      (SCS.solve_via_data "SCS" (λ _, infeasible_result) lp_data true false
         {[ "verbose" := PyBool true ]} (Some {[ "SCS" := solved_result ]}))
    = None
  ∧ SCS.cache_after
      (SCS.solve_via_data "SCS" (λ _, infeasible_result) lp_data true false
         {[ "verbose" := PyBool true ]} (Some {[ "SCS" := solved_result ]}))
    = Some {[ "SCS" := solved_result ]}.
Proof.
  rewrite solve_via_data_raises; [done |].
  eexists. apply lookup_singleton_eq.
Qed.

(** C9, as stated, fails on an option map with a ['verbose'] key: the
    call raises before the solver runs, so no [eps] is passed, whether
    the caller supplied one or not. *)
Lemma verbose_option_passes_no_eps :
  SCS.request
    (SCS.solve_via_data "SCS" (λ _, solved_result) lp_data false true
       (<[ "eps" := PyFloat 1e-3 ]> {[ "verbose" := PyBool false ]}) None)
  = None.
Proof.
  rewrite solve_via_data_raises; [done |].
  eexists. rewrite lookup_insert_ne by done. apply lookup_singleton_eq.
Qed.

(** ** The forward vectorisation *)

Lemma forward_eye2 : forward_vectorize 2 eye2 = Some [1 / 2; 0; 1 / 2]%R.
Proof.
  rewrite forward_vectorize_closed. f_equal. eval_arrays.
  repeat (f_equal; try lra).
Qed.

Lemma forward_ones2 :
  forward_vectorize 2 ones2 = Some [1 / 2; 1 / sqrt 2; 1 / 2]%R.
Proof.
  rewrite forward_vectorize_closed. f_equal. eval_arrays.
  repeat (f_equal; try lra).
Qed.

Lemma symmetric_ones2 : symmetric 2 ones2.
Proof.
  intros i j Hi Hj. destruct i as [| [| i]], j as [| [| j]]; try lia; reflexivity.
Qed.

Lemma forward_sym_ones2 :
  forward_vectorize_sym 2 ones2 = Some [1; sqrt 2; 1]%R.
Proof.
  rewrite forward_vectorize_sym_closed by apply symmetric_ones2.
  f_equal. eval_arrays. repeat (f_equal; try lra).
Qed.

Lemma sqrt2_neq_inv : sqrt 2 ≠ (1 / sqrt 2)%R.
Proof.
  pose proof sqrt2_sqr. pose proof sqrt2_pos. rewrite inv_sqrt2_eq. lra.
Qed.

(** C2, as stated, fails at the 2-by-2 identity: the forward matrix
    applied to it yields [1/2, 0, 1/2], not [1, 0, 1]; and under the
    symmetric-sum reading, which does give unit diagonal entries, the
    off-diagonal entry of the all-ones matrix is [sqrt 2], not
    [1/sqrt 2]. *)
Lemma forward_identity_is_halved :
  forward_vectorize 2 eye2 = Some [1 / 2; 0; 1 / 2]%R
  ∧ forward_vectorize 2 eye2 ≠ Some [1; 0; 1]%R
  ∧ forward_vectorize_sym 2 ones2 = Some [1; sqrt 2; 1]%R
  ∧ sqrt 2 ≠ (1 / sqrt 2)%R.
Proof.
  split; [apply forward_eye2 |]. split.
  - rewrite forward_eye2. intros [=]. lra.
  - split; [apply forward_sym_ones2 | apply sqrt2_neq_inv].
Qed.

(** C2 (amended): for every [n] and every [n]-by-[n] matrix, the forward
    matrix applied to the column-major flattening extracts the
    lower-triangular entries in column-major order into a vector of
    length [n(n+1)/2], with off-diagonal entries scaled by [1/sqrt 2] and
    diagonal entries scaled by [1/2]; for [n = 2] the identity yields
    [1/2, 0, 1/2] and the all-ones matrix has off-diagonal entry
    [1/sqrt 2]. *)
Theorem forward_vectorize_lower_triangle (n : nat) (M : Np.ndarray2) :
  forward_vectorize n M
  = Some ((λ p, (coef p * Np.get2 M p)%R) <$> lower_F n)
  ∧ length (lower_F n) = n * (n + 1) / 2
  ∧ (∀ p, p ∈ lower_F n ↔ p.2 ≤ p.1 < n)
  ∧ StronglySorted lt ((λ p, p.1 + p.2 * n) <$> lower_F n)
  ∧ (∀ i j, coef (i, j) = if decide (i = j) then (1 / 2)%R
                          else (1 / sqrt 2)%R)
  ∧ forward_vectorize 2 eye2 = Some [1 / 2; 0; 1 / 2]%R
  ∧ forward_vectorize 2 ones2 = Some [1 / 2; 1 / sqrt 2; 1 / 2]%R.
Proof.
  split; [apply forward_vectorize_closed |].
  split; [apply length_lower_F |].
  split; [apply elem_of_lower_F |].
  split; [apply (ravel_lower_F_sorted n) |].
  split; [| split; [apply forward_eye2 | apply forward_ones2]].
  intros i j. unfold coef. simpl. case_decide; lra.
Qed.

(** ** The round trip *)

(** On sides 1 and 2 the inverse undoes the forward vectorisation of a
    symmetric matrix, with no special case for side 1. *)
Lemma round_trip_1 (a : R) :
  forward_vectorize_sym 1 [[a]] = Some [a]
  ∧ tri_to_full [a] 1 = Some (Np.ravel_F 1 1 [[a]]).
Proof.
  split; [| apply tri_to_full_1].
  rewrite forward_vectorize_sym_closed.
  - reflexivity.
  - intros i j Hi Hj. by replace i with 0 by lia; replace j with 0 by lia.
Qed.

Lemma round_trip_2 (a b c : R) :
  forward_vectorize_sym 2 [[a; b]; [b; c]] = Some [a; sqrt 2 * b; c]%R
  ∧ tri_to_full [a; sqrt 2 * b; c]%R 2
    = Some (Np.ravel_F 2 2 [[a; b]; [b; c]]).
Proof.
  split.
  - rewrite forward_vectorize_sym_closed; [reflexivity |].
    intros i j Hi Hj.
    destruct i as [| [| i]], j as [| [| j]]; try lia; reflexivity.
  - rewrite tri_to_full_2. eval_arrays.
    pose proof sqrt2_pos.
    repeat (f_equal; try (field; lra)).
Qed.

Lemma ravel_eye3 : Np.ravel_F 3 3 eye3 = [1; 0; 0; 0; 1; 0; 0; 0; 1]%R.
Proof. reflexivity. Qed.

(** C1: at the 3-by-3 identity the forward vectorisation (under the
    symmetric-sum convention, and under the direct one as well) is not
    undone by [tri_to_full]: the middle diagonal entry comes back as [0]
    and the entry at row 2, column 0 as a non-zero value. *)
Theorem round_trip_fails_at_eye3 :
  symmetric 3 eye3
  ∧ forward_vectorize_sym 3 eye3 = Some [1; 0; 0; 1; 0; 1]%R
  ∧ tri_to_full [1; 0; 0; 1; 0; 1]%R 3
    = Some [1; 0 / sqrt 2; 1 / sqrt 2;
            0 / sqrt 2; 0; 0 / sqrt 2;
            0 / sqrt 2; 0 / sqrt 2; 1]%R
  ∧ Np.ravel_F 3 3 eye3 = [1; 0; 0; 0; 1; 0; 0; 0; 1]%R
  ∧ tri_to_full [1; 0; 0; 1; 0; 1]%R 3 ≠ Some (Np.ravel_F 3 3 eye3)
  ∧ ∃ v, forward_vectorize 3 eye3 = Some v
         ∧ tri_to_full v 3 ≠ Some (Np.ravel_F 3 3 eye3).
Proof.
  split; [apply symmetric_eye3 |].
  split; [apply forward_sym_eye3 |].
  split; [apply tri_to_full_3 |].
  split; [apply ravel_eye3 |].
  split.
  - rewrite tri_to_full_3, ravel_eye3. intros [=]. lra.
  - exists [1 / 2; 0; 0; 1 / 2; 0; 1 / 2]%R. split.
    + rewrite forward_vectorize_closed. f_equal. eval_arrays.
      repeat (f_equal; try lra).
    + rewrite tri_to_full_3, ravel_eye3. intros [=]. lra.
Qed.

(** ** The inverse vectorisation *)

(** C3: at side 3 and the vector [1, 2, 3, 4, 5, 6], [tri_to_full] does
    not return the mirrored expansion: the middle diagonal entry is
    [v[2] = 3] instead of [v[3] = 4], and the entries at (2, 0) and
    (0, 2) differ, so the matrix is not symmetric. *)
Theorem tri_to_full_not_mirrored_at_3 :
  tri_to_full [1; 2; 3; 4; 5; 6]%R 3
  = Some [1; 2 / sqrt 2; 4 / sqrt 2;
          2 / sqrt 2; 3; 5 / sqrt 2;
          3 / sqrt 2; 5 / sqrt 2; 6]%R
  ∧ mirrored_expansion [1; 2; 3; 4; 5; 6]%R 3
    = [1; 2 / sqrt 2; 3 / sqrt 2;
       2 / sqrt 2; 4; 5 / sqrt 2;
       3 / sqrt 2; 5 / sqrt 2; 6]%R
  ∧ tri_to_full [1; 2; 3; 4; 5; 6]%R 3
    ≠ Some (mirrored_expansion [1; 2; 3; 4; 5; 6]%R 3)
  ∧ (4 / sqrt 2 ≠ 3 / sqrt 2)%R.
Proof.
  split; [apply tri_to_full_3 |].
  split; [apply mirrored_expansion_3 |].
  split.
  - rewrite tri_to_full_3, mirrored_expansion_3. intros [=]. lra.
  - pose proof sqrt2_pos. intros Heq.
    apply (Rmult_eq_compat_r (sqrt 2)) in Heq.
    unfold Rdiv in Heq. rewrite !Rmult_assoc, Rinv_l in Heq by lra. lra.
Qed.

(** On sides 1 and 2 [tri_to_full] is the mirrored expansion. *)
Lemma tri_to_full_mirrored_upto_2 (a b c : R) :
  tri_to_full [a] 1 = Some (mirrored_expansion [a] 1)
  ∧ tri_to_full [a; b; c] 2 = Some (mirrored_expansion [a; b; c] 2).
Proof.
  split; [by rewrite tri_to_full_1 |].
  by rewrite tri_to_full_2, mirrored_expansion_2.
Qed.

(** ** Dual-value extraction *)

Lemma length_bind_blocks {T U} (f : T → list U) (l : list T) (n : nat) :
  (∀ x, length (f x) = n) → length (l ≫= f) = length l * n.
Proof.
  intros Hf. induction l as [| x l IH]; [reflexivity |].
  rewrite bind_cons, length_app, Hf, IH. simpl. lia.
Qed.

Lemma length_ravel_F n m a : length (Np.ravel_F n m a) = m * n.
Proof.
  unfold Np.ravel_F. rewrite (length_bind_blocks _ _ n).
  - by rewrite length_seq.
  - intros j. by rewrite length_fmap, length_seq.
Qed.

(** [tri_to_full] returns on every vector of [n(n+1)/2] entries. *)
Lemma tri_to_full_is_Some (v : list R) (n : nat) :
  length v = n * (n + 1) / 2 →
  ∃ full, tri_to_full v n = Some full ∧ length full = n * n.
Proof.
  intros Hlen. unfold tri_to_full, Np.assign_at.
  rewrite decide_True by (by rewrite length_triu_indices).
  cbn [mbind option_bind].
  rewrite decide_True by (by rewrite length_tril_indices).
  cbn [mbind option_bind].
  eexists. split; [reflexivity | apply length_ravel_F].
Qed.

(** C7, as stated, fails on a dual vector that is too short: with two
    entries left and a PSD constraint of side 2, the clipped slice has
    two entries instead of three and [tri_to_full] raises. *)
Lemma extract_dual_value_short_vector :
  SCS.extract_dual_value [1; 2]%R 0 (PSD 2) = None
  ∧ Np.slice [1; 2]%R 0 (0 + 2 * (2 + 1) / 2) = [1; 2]%R.
Proof. split; [eval_arrays; reflexivity | reflexivity]. Qed.

(** C7 (amended): when the dual vector has at least [n(n+1)/2] entries
    from the cursor on, a PSD constraint of side [n] consumes exactly
    those entries, returns their image under [tri_to_full] and moves the
    cursor by [n(n+1)/2]; for every other constraint kind the slice is
    returned unchanged and the cursor moves by the constraint's size. *)
Theorem extract_dual_value_advances_cursor
    (result_vec : list R) (offset : nat) :
  (∀ n,
     offset + n * (n + 1) / 2 ≤ length result_vec →
     ∃ full,
       tri_to_full (take (n * (n + 1) / 2) (drop offset result_vec)) n
       = Some full
       ∧ length (take (n * (n + 1) / 2) (drop offset result_vec))
         = n * (n + 1) / 2
       ∧ SCS.extract_dual_value result_vec offset (PSD n)
         = Some (full, offset + n * (n + 1) / 2))
  ∧ (∀ c,
       (∀ n, c ≠ PSD n) →
       SCS.extract_dual_value result_vec offset c
       = Some (take (size c) (drop offset result_vec), offset + size c)).
Proof.
  split.
  - intros n Hlen.
    assert (length (take (n * (n + 1) / 2) (drop offset result_vec))
            = n * (n + 1) / 2) as Hslice.
    { rewrite length_take, length_drop. lia. }
    destruct (tri_to_full_is_Some _ n Hslice) as (full & Hfull & _).
    exists full. split; [exact Hfull |]. split; [exact Hslice |].
    unfold SCS.extract_dual_value, Np.slice.
    replace (offset + n * (n + 1) / 2 - offset) with (n * (n + 1) / 2) by lia.
    by rewrite Hfull.
  - intros c Hc.
    destruct c as [k | k | k | k | n]; [| | | | by destruct (Hc n)];
      unfold SCS.extract_dual_value, utilities.extract_dual_value, Np.slice;
      by replace (offset + size _ - offset) with k by (simpl; lia).
Qed.

(** A dual vector of three entries read at cursor 0 by a PSD constraint
    of side 2, and by a non-negative-orthant constraint of two rows. *)
Lemma extract_dual_value_advances_cursor_witness :
  (∃ full,
     tri_to_full (take (2 * (2 + 1) / 2) (drop 0 [1; 2; 3]%R)) 2 = Some full
     ∧ SCS.extract_dual_value [1; 2; 3]%R 0 (PSD 2)
       = Some (full, 0 + 2 * (2 + 1) / 2))
  ∧ SCS.extract_dual_value [1; 2; 3]%R 0 (NonPos 2)
    = Some ([1; 2]%R, 2).
Proof.
  destruct (extract_dual_value_advances_cursor [1; 2; 3]%R 0)
    as [Hpsd Hother].
  split.
  - destruct (Hpsd 2) as (full & Hfull & _ & Hext); [simpl; lia |].
    exists full. by split.
  - apply (Hother (NonPos 2)). intros n. discriminate.
Defined.

(** ** Instances of the invocation properties *)

(** A warm call against a cache holding the solved result, and a cold
    call without a cache. *)
Lemma warm_start_and_cache_update_witness :
  (∃ req,
     SCS.request
       (SCS.solve_via_data "SCS" (λ _, infeasible_result) lp_data true false
          ∅ (Some {[ "SCS" := solved_result ]})) = Some req
     ∧ call_args req !! "x" = Some (Vector [1%R])
     ∧ ∃ cache',
         SCS.cache_after
           (SCS.solve_via_data "SCS" (λ _, infeasible_result) lp_data true
              false ∅ (Some {[ "SCS" := solved_result ]})) = Some cache'
         ∧ cache' !! "SCS" = Some infeasible_result)
  ∧ ∃ req,
      SCS.request
        (SCS.solve_via_data "SCS" (λ _, infeasible_result) lp_data true
           false ∅ None) = Some req
      ∧ call_args req !! "x" = None.
Proof.
  split.
  - destruct (warm_start_and_cache_update "SCS" (λ _, infeasible_result)
                lp_data true false ∅ (Some {[ "SCS" := solved_result ]})
                (lookup_empty _))
      as (req & res & Hreq & _ & Hres & Hwarm & _ & Hcache & _).
    exists req. split; [exact Hreq |]. split.
    + destruct (Hwarm {[ "SCS" := solved_result ]} solved_result eq_refl
                  eq_refl (lookup_singleton_eq _ _)) as [Hx _].
      exact Hx.
    + destruct (Hcache {[ "SCS" := solved_result ]} eq_refl)
        as (cache' & Hafter & Hstored & _).
      exists cache'. split; [exact Hafter |]. by rewrite Hstored, Hres.
  - destruct (warm_start_and_cache_update "SCS" (λ _, infeasible_result)
                lp_data true false ∅ None (lookup_empty _))
      as (req & res & Hreq & _ & _ & _ & Hcold & _).
    exists req. split; [exact Hreq |].
    apply Hcold. intros (_ & cache & Hsome & _). discriminate.
Defined.

(** A call with an option map that sets [max_iters] only. *)
Lemma eps_passed_to_solver_witness :
  ∃ req,
    SCS.request
      (SCS.solve_via_data "SCS" (λ _, solved_result) lp_data false false
         {[ "max_iters" := PyInt 2500 ]} None) = Some req
    ∧ call_opts req !! "eps" = Some (PyFloat 1e-4).
Proof.
  destruct (eps_passed_to_solver "SCS" (λ _, solved_result) lp_data false
              false {[ "max_iters" := PyInt 2500 ]} None)
    as (req & Hreq & Heps).
  { by apply lookup_singleton_ne. }
  exists req. split; [exact Hreq |].
  rewrite Heps. by rewrite lookup_singleton_ne.
Defined.

(** A call with an option map that sets [max_iters] only. *)
Lemma solver_opts_mutated_only_at_eps_witness :
  let d := {| SCS.DIMS := Build_ConeDims 0 1 [] 0 []; SCS.C := [1%R];
              SCS.A := [[(-1)%R]]; SCS.B := [(-1)%R] |} in
  let out := SCS.solve_via_data "SCS" (λ _, solved_result) d false false
               {[ "max_iters" := PyInt 2500 ]} None in
  SCS.opts_after out !! "max_iters" = Some (PyInt 2500)
  ∧ SCS.opts_after out !! "eps" = Some (PyFloat 1e-4).
Proof.
  intros d out.
  pose proof (solver_opts_mutated_only_at_eps "SCS" (λ _, solved_result)
                d false false {[ "max_iters" := PyInt 2500 ]} None)
    as (Heps & Hother & _).
  subst out. split.
  - rewrite (Hother "max_iters") by discriminate.
    apply lookup_singleton_eq.
  - rewrite Heps. by rewrite lookup_singleton_ne.
Defined.

(** * Further properties of the code *)

(** ** Scatter and in-place division on dense arrays *)

Lemma elem_of_triu_indices n k p :
  p ∈ Np.triu_indices n k
  ↔ p.1 < n ∧ p.2 < n ∧ (k ≤ Z.of_nat p.2 - Z.of_nat p.1)%Z.
Proof.
  unfold Np.triu_indices. rewrite list_elem_of_bind. split.
  - intros (i & Hp & Hi). apply list_elem_of_bind in Hp as (j & Hp & Hj).
    apply list_elem_of_singleton in Hp as ->.
    apply list_elem_of_filter in Hj as [Hle Hj].
    apply elem_of_seq in Hi, Hj. simpl. lia.
  - destruct p as [i j]. simpl. intros (Hi & Hj & Hle).
    exists i. split; [| apply elem_of_seq; lia].
    apply list_elem_of_bind. exists j.
    split; [by apply list_elem_of_singleton |].
    apply list_elem_of_filter. split; [done | apply elem_of_seq; lia].
Qed.

Lemma NoDup_triu_indices n k : NoDup (Np.triu_indices n k).
Proof.
  unfold Np.triu_indices. apply NoDup_bind; [| | apply NoDup_seq].
  - intros i1 i2 p _ _ H1 H2.
    apply list_elem_of_bind in H1 as (j1 & H1 & _), H2 as (j2 & H2 & _).
    apply list_elem_of_singleton in H1, H2. congruence.
  - intros i _. apply NoDup_bind; [| | apply NoDup_filter, NoDup_seq].
    + intros j1 j2 p _ _ H1 H2.
      apply list_elem_of_singleton in H1, H2. congruence.
    + intros j _. apply NoDup_singleton.
Qed.

Lemma scatter_has_shape n m a idx vals :
  has_shape n m a → has_shape n m (Np.scatter a idx vals).
Proof.
  revert a vals. induction idx as [| p idx IH]; intros a vals Ha; [done |].
  destruct vals as [| v vals]; [done |]. simpl.
  apply IH. by apply set2_has_shape.
Qed.

Lemma get2_scatter_notin n m a idx vals q :
  has_shape n m a → Forall (in_shape n m) idx → q ∉ idx →
  Np.get2 (Np.scatter a idx vals) q = Np.get2 a q.
Proof.
  revert a vals. induction idx as [| p idx IH]; intros a vals Ha Hidx Hq;
    [done |].
  destruct vals as [| v vals]; [done |]. simpl.
  apply Forall_cons in Hidx as [[Hp1 Hp2] Hidx].
  apply not_elem_of_cons in Hq as [Hne Hq].
  rewrite IH by (try apply set2_has_shape; done).
  rewrite (get2_set2 n m) by done. by rewrite decide_False.
Qed.

Lemma get2_scatter_lookup n m a idx vals k q x :
  has_shape n m a → Forall (in_shape n m) idx → NoDup idx →
  idx !! k = Some q → vals !! k = Some x →
  Np.get2 (Np.scatter a idx vals) q = x.
Proof.
  revert a vals k. induction idx as [| p idx IH]; intros a vals k Ha Hidx Hnd Hk Hx;
    [done |].
  destruct vals as [| v vals]; [done |]. simpl.
  apply Forall_cons in Hidx as [[Hp1 Hp2] Hidx].
  apply NoDup_cons in Hnd as [Hp Hnd].
  destruct k as [| k]; simpl in Hk, Hx.
  - injection Hk as ->. injection Hx as ->.
    rewrite (get2_scatter_notin n m) by (try apply set2_has_shape; done).
    rewrite (get2_set2 n m) by done. by rewrite decide_True.
  - apply (IH _ _ k); try done. by apply set2_has_shape.
Qed.

Lemma div_at_has_shape n m a idx c :
  has_shape n m a → has_shape n m (Np.div_at a idx c).
Proof. apply scatter_has_shape. Qed.

Lemma get2_div_at n m a idx c q :
  has_shape n m a → Forall (in_shape n m) idx → NoDup idx →
  Np.get2 (Np.div_at a idx c) q
  = if decide (q ∈ idx) then (Np.get2 a q / c)%R else Np.get2 a q.
Proof.
  intros Ha Hidx Hnd. unfold Np.div_at. case_decide as Hq.
  - apply list_elem_of_lookup in Hq as [k Hk].
    apply (get2_scatter_lookup n m _ _ _ k); try done.
    by rewrite list_lookup_fmap, Hk.
  - by apply (get2_scatter_notin n m).
Qed.

(** ** [tri_to_full] in general *)

Lemma tri_to_full_unfold (v : list R) (n : nat) :
  length v = n * (n + 1) / 2 →
  tri_to_full v n
  = Some (Np.ravel_F n n
            (Np.div_at
               (Np.div_at
                  (Np.scatter
                     (Np.scatter (Np.zeros n n) (Np.triu_indices n 0) v)
                     (Np.tril_indices n 0) v)
                  (Np.tril_indices n (-1)) (sqrt 2))
               (Np.triu_indices n 1) (sqrt 2))).
Proof.
  intros Hlen. unfold tri_to_full, Np.assign_at.
  rewrite decide_True by (by rewrite length_triu_indices).
  cbn [mbind option_bind].
  by rewrite decide_True by (by rewrite length_tril_indices).
Qed.

Lemma tril_indices_in_shape n k : Forall (in_shape n n) (Np.tril_indices n k).
Proof.
  apply Forall_forall. intros p Hp%elem_of_tril_indices. unfold in_shape. lia.
Qed.

Lemma triu_indices_in_shape n k : Forall (in_shape n n) (Np.triu_indices n k).
Proof.
  apply Forall_forall. intros p Hp%elem_of_triu_indices. unfold in_shape. lia.
Qed.

(** X1: [tri_to_full] returns exactly when the vector has [n(n+1)/2]
    entries or a single entry (which NumPy broadcasts); every other
    length raises.  When it returns, the result has [n * n] entries. *)
Theorem tri_to_full_defined_iff (v : list R) (n : nat) :
  (is_Some (tri_to_full v n)
   ↔ length v = n * (n + 1) / 2 ∨ length v = 1)
  ∧ ∀ r, tri_to_full v n = Some r → length r = n * n.
Proof.
  split.
  - split.
    + intros Hsome.
      destruct (decide (length v = n * (n + 1) / 2)) as [| Hne]; [by left |].
      right. unfold tri_to_full, Np.assign_at in Hsome.
      rewrite decide_False in Hsome by (by rewrite length_triu_indices).
      destruct v as [| x [| y v]]; [by destruct Hsome | done |].
      by destruct Hsome.
    + intros [Hlen | Hlen].
      * destruct (tri_to_full_is_Some v n Hlen) as (r & -> & _). by eexists.
      * destruct v as [| x [| y v]]; try discriminate.
        unfold tri_to_full, Np.assign_at.
        repeat (case_decide; cbn [mbind option_bind]); by eexists.
  - intros r Hr. unfold tri_to_full in Hr.
    destruct (Np.assign_at _ _ _); [| done]. cbn [mbind option_bind] in Hr.
    destruct (Np.assign_at _ _ _); [| done]. cbn [mbind option_bind] in Hr.
    injection Hr as <-. apply length_ravel_F.
Qed.

(** X2: on a vector of [n(n+1)/2] entries, the entry of the result at the
    [k]-th position of [np.tril_indices(n)] (the lower triangle read row
    by row) is [v[k]], divided by [sqrt 2] off the diagonal; the entry at
    the mirror image of the [k]-th column-major lower position is
    [v[k] / sqrt 2]. *)
Theorem tri_to_full_entries (v : list R) (n : nat) (r : list R) :
  length v = n * (n + 1) / 2 →
  tri_to_full v n = Some r →
  (∀ k i j x,
     Np.tril_indices n 0 !! k = Some (i, j) → v !! k = Some x →
     r !! (i + j * n) = Some (if decide (i = j) then x else (x / sqrt 2)%R))
  ∧ (∀ k i j x,
       lower_F n !! k = Some (i, j) → j < i → v !! k = Some x →
       r !! (j + i * n) = Some (x / sqrt 2)%R).
Proof.
  intros Hlen Hr. rewrite tri_to_full_unfold in Hr by done.
  injection Hr as <-.
  set (full1 := Np.scatter (Np.zeros n n) (Np.triu_indices n 0) v).
  set (full2 := Np.scatter full1 (Np.tril_indices n 0) v).
  set (full3 := Np.div_at full2 (Np.tril_indices n (-1)) (sqrt 2)).
  assert (has_shape n n full1) as Hs1
    by apply scatter_has_shape, zeros_has_shape.
  assert (has_shape n n full2) as Hs2 by by apply scatter_has_shape.
  assert (has_shape n n full3) as Hs3 by by apply div_at_has_shape.
  split.
  - intros k i j x Hk Hx.
    pose proof (list_elem_of_lookup_2 _ _ _ Hk) as Hin.
    apply elem_of_tril_indices in Hin. simpl in Hin.
    rewrite lookup_ravel_F by lia. f_equal.
    rewrite (get2_div_at n n)
      by (try apply triu_indices_in_shape; try apply NoDup_triu_indices; done).
    rewrite decide_False
      by (intros H%elem_of_triu_indices; simpl in H; lia).
    unfold full3. rewrite (get2_div_at n n)
      by (try apply tril_indices_in_shape; try apply NoDup_tril_indices; done).
    unfold full2.
    rewrite (get2_scatter_lookup n n _ _ _ k (i, j) x)
      by (try apply tril_indices_in_shape; try apply NoDup_tril_indices; done).
    destruct (decide (i = j)) as [-> | Hne].
    + by rewrite decide_False
        by (intros H%elem_of_tril_indices; simpl in H; lia).
    + by rewrite decide_True by (apply elem_of_tril_indices; simpl; lia).
  - intros k i j x Hk Hij Hx.
    pose proof (list_elem_of_lookup_2 _ _ _ Hk) as Hin.
    apply elem_of_lower_F in Hin. simpl in Hin.
    rewrite lookup_ravel_F by lia. f_equal.
    rewrite (get2_div_at n n)
      by (try apply triu_indices_in_shape; try apply NoDup_triu_indices; done).
    rewrite decide_True by (apply elem_of_triu_indices; simpl; lia).
    unfold full3. rewrite (get2_div_at n n)
      by (try apply tril_indices_in_shape; try apply NoDup_tril_indices; done).
    rewrite decide_False
      by (intros H%elem_of_tril_indices; simpl in H; lia).
    unfold full2.
    rewrite (get2_scatter_notin n n)
      by (try apply tril_indices_in_shape; try done;
          intros H%elem_of_tril_indices; simpl in H; lia).
    unfold full1.
    rewrite (get2_scatter_lookup n n _ _ _ k (j, i) x); try done.
    + apply zeros_has_shape.
    + apply triu_indices_in_shape.
    + apply NoDup_triu_indices.
    + rewrite triu_indices_lower_F, list_lookup_fmap, Hk. done.
Qed.

Lemma tril_indices_prefix (m : nat) :
  Np.tril_indices (S (S (S m))) 0 !! 2 = Some (1, 1)
  ∧ Np.tril_indices (S (S (S m))) 0 !! 3 = Some (2, 0).
Proof. rewrite tril_indices_rows. by split. Qed.

Lemma lower_F_prefix (m : nat) : lower_F (S (S (S m))) !! 2 = Some (2, 0).
Proof. reflexivity. Qed.

(** X4: for every side [n >= 3] and every vector of [n(n+1)/2] entries,
    the middle diagonal entry (1, 1) of the result is [v[2]], entry
    (2, 0) is [v[3] / sqrt 2] and entry (0, 2) is [v[2] / sqrt 2]: the
    result is symmetric only if [v[2] = v[3]]. *)
Theorem tri_to_full_asymmetric_from_3
    (n : nat) (v r : list R) (x2 x3 : R) :
  3 ≤ n → length v = n * (n + 1) / 2 →
  tri_to_full v n = Some r →
  v !! 2 = Some x2 → v !! 3 = Some x3 →
  r !! (1 + 1 * n) = Some x2
  ∧ r !! (2 + 0 * n) = Some (x3 / sqrt 2)%R
  ∧ r !! (0 + 2 * n) = Some (x2 / sqrt 2)%R.
Proof.
  intros Hn Hlen Hr H2 H3.
  destruct n as [| [| [| m]]]; try lia.
  destruct (tri_to_full_entries v _ r Hlen Hr) as [Hlow Hup].
  destruct (tril_indices_prefix m) as [Ht2 Ht3].
  split; [| split].
  - by rewrite (Hlow 2 1 1 x2 Ht2 H2).
  - by rewrite (Hlow 3 2 0 x3 Ht3 H3).
  - apply (Hup 2 2 0 x2 (lower_F_prefix m)); [lia | done].
Qed.

(** X5: a single-entry vector is broadcast: for every side, each
    diagonal entry of the result is that entry and each off-diagonal
    entry is that entry divided by [sqrt 2]. *)
Theorem tri_to_full_broadcasts_singleton (n : nat) (x : R) (r : list R) :
  tri_to_full [x] n = Some r →
  ∀ i j, i < n → j < n →
    r !! (i + j * n) = Some (if decide (i = j) then x else (x / sqrt 2)%R).
Proof.
  intros Hr i j Hi Hj.
  destruct (decide (n = 1)) as [-> | Hn1].
  { rewrite tri_to_full_1 in Hr. injection Hr as <-.
    by replace i with 0 by lia; replace j with 0 by lia. }
  assert (length [x] ≠ n * (n + 1) / 2) as Hne.
  { cbn [length]. intros H.
    pose proof (Nat.div_mod_eq (n * (n + 1)) 2).
    pose proof (Nat.mod_upper_bound (n * (n + 1)) 2). nia. }
  unfold tri_to_full, Np.assign_at in Hr.
  rewrite decide_False in Hr by (by rewrite length_triu_indices).
  cbn [mbind option_bind] in Hr.
  rewrite decide_False in Hr by (by rewrite length_tril_indices).
  cbn [mbind option_bind] in Hr. injection Hr as <-.
  set (full1 := Np.fill_at (Np.zeros n n) (Np.triu_indices n 0) x).
  set (full2 := Np.fill_at full1 (Np.tril_indices n 0) x).
  set (full3 := Np.div_at full2 (Np.tril_indices n (-1)) (sqrt 2)).
  assert (has_shape n n full1) as Hs1
    by apply fill_at_has_shape, zeros_has_shape.
  assert (has_shape n n full2) as Hs2 by by apply fill_at_has_shape.
  assert (has_shape n n full3) as Hs3 by by apply div_at_has_shape.
  assert (Np.get2 full2 (i, j) = x) as Hfull2.
  { unfold full2. rewrite (get2_fill_at n n)
      by (try apply tril_indices_in_shape; done).
    case_decide as Hin; [done |]. unfold full1.
    rewrite (get2_fill_at n n)
      by (try apply triu_indices_in_shape; try apply zeros_has_shape).
    rewrite decide_True; [done |].
    apply elem_of_triu_indices. simpl.
    rewrite elem_of_tril_indices in Hin. simpl in Hin. lia. }
  rewrite lookup_ravel_F by lia. f_equal.
  rewrite (get2_div_at n n)
    by (try apply triu_indices_in_shape; try apply NoDup_triu_indices; done).
  unfold full3.
  rewrite (get2_div_at n n)
    by (try apply tril_indices_in_shape; try apply NoDup_tril_indices; done).
  rewrite Hfull2.
  destruct (decide (i = j)) as [-> | Hne'].
  - rewrite decide_False
      by (intros H%elem_of_triu_indices; simpl in H; lia).
    by rewrite decide_False
      by (intros H%elem_of_tril_indices; simpl in H; lia).
  - destruct (decide (i < j)).
    + rewrite decide_True by (apply elem_of_triu_indices; simpl; lia).
      by rewrite decide_False
        by (intros H%elem_of_tril_indices; simpl in H; lia).
    + rewrite decide_False
        by (intros H%elem_of_triu_indices; simpl in H; lia).
      by rewrite decide_True by (apply elem_of_tril_indices; simpl; lia).
Qed.

(** ** Small sides, the forward matrix and dual extraction *)

Lemma mirrored_expansion_1 (a : R) : mirrored_expansion [a] 1 = [a].
Proof. eval_arrays. reflexivity. Qed.

(** X3: for sides up to 2, [tri_to_full] is the mirrored expansion of
    its docstring on every vector of [n(n+1)/2] entries. *)
Theorem tri_to_full_small_sides (v : list R) (n : nat) :
  n ≤ 2 → length v = n * (n + 1) / 2 →
  tri_to_full v n = Some (mirrored_expansion v n).
Proof.
  intros Hn Hlen. destruct n as [| [| [| n]]]; [| | | lia].
  - destruct v; [| discriminate]. reflexivity.
  - destruct v as [| a [| b v]]; try discriminate.
    by rewrite tri_to_full_1, mirrored_expansion_1.
  - destruct v as [| a [| b [| c [| d v]]]]; try discriminate.
    by rewrite tri_to_full_2, mirrored_expansion_2.
Qed.

(** X6: [scaled_lower_tri] returns for every size: a matrix of shape
    [(n(n+1)/2, n * n)] whose stored entries sit one per row, in rows
    [0, 1, ...], at strictly increasing columns below [n * n], each with
    value [0.5] or [1/sqrt 2]. *)
Theorem scaled_lower_tri_structure (n : nat) :
  ∃ F, scaled_lower_tri n = Some F
       ∧ Sp.shape F = (n * (n + 1) / 2, n * n)
       ∧ (λ e : nat * nat * R, e.1.1) <$> Sp.coo F = seq 0 (n * (n + 1) / 2)
       ∧ StronglySorted lt ((λ e : nat * nat * R, e.1.2) <$> Sp.coo F)
       ∧ Forall (λ e : nat * nat * R,
                   e.1.2 < n * n ∧ (e.2 = 0.5 ∨ e.2 = 1 / sqrt 2)%R)
                (Sp.coo F).
Proof.
  eexists. split; [apply scaled_lower_tri_coo |]. cbn [Sp.shape Sp.coo].
  split; [done |]. unfold lower_tri_coo.
  assert (length (seq 0 (length (lower_F n)))
          = length ((λ p : nat * nat, p.1 + p.2 * n) <$> lower_F n)) as Hl1
    by by rewrite length_seq, length_fmap.
  assert (length (zip (seq 0 (length (lower_F n)))
                      ((λ p : nat * nat, p.1 + p.2 * n) <$> lower_F n))
          = length (coef <$> lower_F n)) as Hl2.
  { rewrite length_zip_with_l_eq by done.
    by rewrite length_seq, length_fmap. }
  assert (∀ l : list (nat * nat * R),
            (λ e : nat * nat * R, e.1.1) <$> l = l.*1.*1) as Erow
    by (intros; by rewrite <- list_fmap_compose).
  assert (∀ l : list (nat * nat * R),
            (λ e : nat * nat * R, e.1.2) <$> l = l.*1.*2) as Ecol
    by (intros; by rewrite <- list_fmap_compose).
  split; [| split].
  - rewrite Erow. rewrite fst_zip by lia. rewrite fst_zip by lia.
    by rewrite length_lower_F.
  - rewrite Ecol. rewrite fst_zip by lia. rewrite snd_zip by lia.
    apply (ravel_lower_F_sorted n).
  - apply Forall_forall. intros [[r c] x] Hin.
    apply elem_of_zip_l in Hin as Hrc. apply elem_of_zip_r in Hin as Hx.
    apply elem_of_zip_r in Hrc. cbn [fst snd] in *.
    apply list_elem_of_fmap in Hrc as ([i j] & -> & Hp%elem_of_lower_F).
    apply list_elem_of_fmap in Hx as (q & -> & _).
    simpl in *. split; [nia |]. unfold coef. case_decide; auto.
Qed.

(** X7: the forward matrix never reads the strict upper triangle: two
    matrices that agree on and below the diagonal have the same
    vectorisation. *)
Theorem forward_vectorize_ignores_upper (n : nat) (M M' : Np.ndarray2) :
  (∀ i j, j ≤ i → i < n → Np.get2 M (i, j) = Np.get2 M' (i, j)) →
  forward_vectorize n M = forward_vectorize n M'.
Proof.
  intros Hlow. rewrite !forward_vectorize_closed. f_equal.
  apply list_fmap_ext. intros k [i j] Hp.
  apply list_elem_of_lookup_2, elem_of_lower_F in Hp. simpl in Hp.
  f_equal. apply Hlow; lia.
Qed.

Lemma length_slice (v : list R) (lo hi : nat) :
  length (Np.slice v lo hi) = min (hi - lo) (length v - lo).
Proof. unfold Np.slice. by rewrite length_take, length_drop. Qed.

(** X8: on a PSD constraint of side [n], [extract_dual_value] returns
    exactly when the clipped slice has [n(n+1)/2] entries or a single
    entry; with any other number of entries left it raises. *)
Theorem extract_dual_value_psd_defined_iff
    (result_vec : list R) (offset n : nat) :
  let avail := min (n * (n + 1) / 2) (length result_vec - offset) in
  is_Some (SCS.extract_dual_value result_vec offset (PSD n))
  ↔ avail = n * (n + 1) / 2 ∨ avail = 1.
Proof.
  intros avail. unfold SCS.extract_dual_value.
  pose proof (proj1 (tri_to_full_defined_iff
    (Np.slice result_vec offset (offset + n * (n + 1) / 2)) n)) as Hiff.
  rewrite length_slice in Hiff.
  replace (offset + n * (n + 1) / 2 - offset) with (n * (n + 1) / 2)
    in Hiff by lia.
  fold avail in Hiff. rewrite <- Hiff.
  destruct (tri_to_full _ n); cbn [mbind option_bind]; split;
    intros [? ?]; by eauto.
Qed.

(** X9: whenever [extract_dual_value] returns on a PSD constraint of
    side [n], the cursor has advanced by [n(n+1)/2], whatever the vector
    held, and the value is [tri_to_full] of the slice between the two
    cursors, with [n * n] entries. *)
Theorem extract_dual_value_psd_result
    (result_vec : list R) (offset n : nat) (val : list R) (off' : nat) :
  SCS.extract_dual_value result_vec offset (PSD n) = Some (val, off') →
  off' = offset + n * (n + 1) / 2
  ∧ length val = n * n
  ∧ tri_to_full (Np.slice result_vec offset off') n = Some val.
Proof.
  unfold SCS.extract_dual_value.
  destruct (tri_to_full _ n) as [full |] eqn:E; [| done].
  cbn [mbind option_bind]. intros [= <- <-].
  split; [done |]. split; [| done].
  by apply (proj2 (tri_to_full_defined_iff _ n)) in E.
Qed.

(** ** Inversion *)

Section inversion_more.

Context (const_to_matrix : list R → list R) (DUAL_VAR_ID : string).

Local Abbreviation invert := (SCS.invert const_to_matrix DUAL_VAR_ID).

(** X10: [invert] returns exactly when the raw status string is one of
    the nine keys of [STATUS_MAP]; any other string raises [KeyError]. *)
Theorem invert_defined_iff (sol : scs_result) (inv : SCS.inverse_data) :
  is_Some (invert sol inv) ↔ info_status (info sol) ∈ solver_statuses.
Proof.
  rewrite <- STATUS_MAP_dom. unfold SCS.invert.
  destruct (SCS.STATUS_MAP !! info_status (info sol)) as [st |];
    cbn [mbind option_bind].
  - split; [by eauto |]. intros _. case_decide; by eexists.
  - split; intros [? ?]; done.
Qed.

Lemma usable_status_lookup (str : string) :
  str ∈ usable_statuses →
  ∃ st, SCS.STATUS_MAP !! str = Some st ∧ st ∈ s.SOLUTION_PRESENT.
Proof.
  unfold usable_statuses, s.SOLUTION_PRESENT. intros Hin.
  repeat (apply elem_of_cons in Hin as [-> | Hin]);
    [ eexists; split; [vm_compute; reflexivity |];
      rewrite !elem_of_cons; auto .. | by apply elem_of_nil in Hin ].
Qed.

(** X11: on "Solved" and "Solved/Inaccurate" the returned record has
    the optimal value [pobj + offset], an attribute bag with exactly the
    three diagnostics of the raw result, one primal entry under the
    variable identifier and one dual entry under [DUAL_VAR_ID]. *)
Theorem invert_usable_record (sol : scs_result) (inv : SCS.inverse_data) :
  info_status (info sol) ∈ usable_statuses →
  ∃ r, invert sol inv = Some r
       ∧ opt_val r = Some (pobj (info sol) + SCS.OFFSET inv)%R
       ∧ dom (attr r) = {[ s.SOLVE_TIME; s.SETUP_TIME; s.NUM_ITERS ]}
       ∧ attr r !! s.SOLVE_TIME = Some (PyFloat (solveTime (info sol)))
       ∧ attr r !! s.SETUP_TIME = Some (PyFloat (setupTime (info sol)))
       ∧ attr r !! s.NUM_ITERS = Some (PyInt (iter (info sol)))
       ∧ dom (primal_vars r) = {[ SCS.VAR_ID inv ]}
       ∧ dom (dual_vars r) = {[ DUAL_VAR_ID ]}.
Proof.
  intros (st & Hst & Hin)%usable_status_lookup.
  eexists. split; [by apply invert_present |]. cbn [opt_val attr primal_vars dual_vars].
  split; [done |]. split.
  - rewrite !dom_insert_L, dom_empty_L. set_solver.
  - unfold s.SOLVE_TIME, s.SETUP_TIME, s.NUM_ITERS.
    repeat (split; [by simplify_map_eq |]).
    by rewrite !dom_singleton_L.
Qed.

(** X12: on the seven failure statuses the record [invert] returns
    depends on the status string alone: neither the inverse data nor the
    vectors, objective or diagnostics of the raw result reach it. *)
Theorem invert_failure_depends_on_status_only
    (sol sol' : scs_result) (inv inv' : SCS.inverse_data) :
  info_status (info sol) ∈ failure_statuses →
  info_status (info sol') = info_status (info sol) →
  invert sol' inv' = invert sol inv.
Proof.
  intros Hin Heq.
  destruct (failure_status_lookup _ Hin) as (st & Hst & Hno).
  rewrite (invert_absent _ _ sol inv st Hst Hno).
  apply invert_absent; [by rewrite Heq | done].
Qed.

End inversion_more.

(** ** Formatting *)

Lemma removelast_last_Some {T} (l : list T) (x : T) :
  last l = Some x → removelast l ++ [x] = l.
Proof.
  intros [l' ->]%last_Some. by rewrite removelast_snoc.
Qed.

Lemma neg_involutive (a : Np.ndarray2) : Np.neg (Np.neg a) = a.
Proof.
  unfold Np.neg. rewrite <- list_fmap_compose.
  rewrite <- (list_fmap_id a) at 2. apply list_fmap_ext.
  intros _ row _. simpl. rewrite <- list_fmap_compose.
  rewrite <- (list_fmap_id row) at 2. apply list_fmap_ext.
  intros _ x _. simpl. apply Ropp_involutive.
Qed.

Lemma hstack_drop_last_col (a : Np.ndarray2) (b : list R) :
  Np.last_col a = Some b → hstack (Np.drop_last_col a) b = a.
Proof.
  unfold Np.last_col, Np.drop_last_col, hstack.
  intros H%mapM_Some. induction H as [| row x a b Hrow _ IH]; [done |].
  csimpl. f_equal; [by apply removelast_last_Some | exact IH].
Qed.

Section formatting_more.

Context {problem : Type}.
Context (x_id : problem → nat) (cone_dims : problem → ConeDims).
Context (prob_c : problem → list R) (prob_A : problem → Np.ndarray2).

Local Abbreviation apply := (SCS.apply x_id cone_dims prob_c prob_A).

(** X13: on an affine map with at least one row, [apply] raises exactly
    when the cost vector is empty or the map has no columns. *)
Theorem apply_fails_iff (p : problem) :
  prob_A p ≠ [] →
  apply p = None ↔ prob_c p = [] ∨ [] ∈ prob_A p.
Proof.
  intros _. unfold SCS.apply. split.
  - destruct (last (prob_c p)) eqn:Ec; cbn [mbind option_bind].
    + destruct (Np.last_col (prob_A p)) eqn:EA; cbn [mbind option_bind];
        [done |]. intros _. right.
      apply mapM_None, Exists_exists in EA as (row & Hin & Hrow).
      by apply last_None in Hrow as ->.
    + intros _. left. by apply last_None.
  - intros [Hc | HA].
    + by rewrite Hc.
    + destruct (last (prob_c p)); cbn [mbind option_bind]; [| done].
      assert (Np.last_col (prob_A p) = None) as ->; [| done].
      apply mapM_None, Exists_exists. by exists [].
Qed.

(** X14: whatever [apply] returns loses nothing: the cost vector is [c]
    followed by the offset, and the affine map is [-A] with [b] appended
    as last column; [A] and [b] have one row per row of the map, and
    both records carry the problem's cone dimensions. *)
Theorem apply_reassembles (p : problem) (d : SCS.data)
    (inv : SCS.inverse_data) :
  apply p = Some (d, inv) →
  prob_c p = SCS.C d ++ [SCS.OFFSET inv]
  ∧ prob_A p = hstack (Np.neg (SCS.A d)) (SCS.B d)
  ∧ length (SCS.A d) = length (prob_A p)
  ∧ length (SCS.B d) = length (prob_A p)
  ∧ SCS.DIMS d = cone_dims p
  ∧ SCS.inv_DIMS inv = cone_dims p
  ∧ SCS.VAR_ID inv = x_id p.
Proof.
  unfold SCS.apply.
  destruct (last (prob_c p)) as [k |] eqn:Ec; cbn [mbind option_bind];
    [| done].
  destruct (Np.last_col (prob_A p)) as [b |] eqn:EA; cbn [mbind option_bind];
    [| done].
  intros [= <- <-]. cbn [SCS.C SCS.A SCS.B SCS.DIMS SCS.OFFSET SCS.inv_DIMS
                          SCS.VAR_ID].
  split; [by rewrite removelast_last_Some |].
  split; [by rewrite neg_involutive, hstack_drop_last_col |].
  split; [unfold Np.neg, Np.drop_last_col; by rewrite !length_fmap |].
  split; [| done].
  apply mapM_Some in EA. symmetry. by eapply Forall2_length.
Qed.

End formatting_more.

(** ** Invocation *)

Section invocation_more.

Context (name : string) (scs_solve : scs_call → scs_result).

Local Abbreviation solve_via_data := (SCS.solve_via_data name scs_solve).

(** X15: every call whose option map has no ['verbose'] key hands the
    solver a request that holds the problem data under ["A"], ["b"] and
    ["c"], warm start or not, has no key other than these and ["x"],
    ["y"], ["s"], and carries the cone dictionary of the data and the
    caller's verbosity flag. *)
Theorem request_problem_data
    (d : SCS.data) (warm verbose : bool) (opts : gmap string pyval)
    (solver_cache : option (gmap string scs_result)) :
  opts !! "verbose" = None →
  ∃ req,
    SCS.request (solve_via_data d warm verbose opts solver_cache) = Some req
    ∧ call_args req !! "A" = Some (Matrix (SCS.A d))
    ∧ call_args req !! "b" = Some (Vector (SCS.B d))
    ∧ call_args req !! "c" = Some (Vector (SCS.C d))
    ∧ dom (call_args req) ⊆ {[ "A"; "b"; "c"; "x"; "y"; "s" ]}
    ∧ call_cones req = dims_to_solver_dict (SCS.DIMS d)
    ∧ call_verbose req = verbose.
Proof.
  intros Hv.
  destruct (solve_via_data_calls name scs_solve d warm verbose opts
              solver_cache Hv)
    as (req & Hreq & _ & _ & Hcones & Hverb & _ & Hargs).
  exists req. split; [exact Hreq |]. rewrite Hargs.
  destruct warm, (cached name solver_cache) as [prev |];
    (do 3 (split; [by simplify_map_eq |]));
    (split; [| by split]);
    rewrite !dom_insert_L, dom_singleton_L; set_unfold; tauto.
Qed.

(** X16: the mutation of the option map is idempotent: a map that went
    through one call is left unchanged by every later call. *)
Theorem solver_opts_mutation_idempotent
    (d d' : SCS.data) (warm warm' verbose verbose' : bool)
    (opts : gmap string pyval)
    (solver_cache solver_cache' : option (gmap string scs_result)) :
  let opts1 :=
    SCS.opts_after (solve_via_data d warm verbose opts solver_cache) in
  SCS.opts_after (solve_via_data d' warm' verbose' opts1 solver_cache')
  = opts1.
Proof.
  cbn zeta. rewrite !opts_after_insert.
  rewrite lookup_insert_eq. cbn [default]. by rewrite insert_insert_eq.
Qed.

(** X17: after a call with a cache, a warm-started call on that cache
    hands the solver the [x], [y] and [s] of the first call's result,
    whatever the cache held before, provided neither option map has a
    ['verbose'] key. *)
Theorem second_call_warm_starts_from_first
    (d d' : SCS.data) (warm verbose verbose' : bool)
    (opts opts' : gmap string pyval) (cache : gmap string scs_result) :
  opts !! "verbose" = None →
  opts' !! "verbose" = None →
  let out1 := solve_via_data d warm verbose opts (Some cache) in
  let out2 :=
    solve_via_data d' true verbose' opts' (SCS.cache_after out1) in
  ∃ res1 req2,
    SCS.results out1 = Some res1
    ∧ SCS.request out2 = Some req2
    ∧ call_args req2 !! "x" = Some (Vector (res_x res1))
    ∧ call_args req2 !! "y" = Some (Vector (res_y res1))
    ∧ call_args req2 !! "s" = Some (Vector (res_s res1)).
Proof.
  intros Hv Hv' out1 out2.
  destruct (solve_via_data_calls name scs_solve d warm verbose opts
              (Some cache) Hv)
    as (req1 & _ & Hres1 & Hcache1 & _).
  destruct (solve_via_data_calls name scs_solve d' true verbose' opts'
              (SCS.cache_after out1) Hv')
    as (req2 & Hreq2 & _ & _ & _ & _ & _ & Hargs2).
  exists (scs_solve req1), req2. subst out2.
  split; [exact Hres1 |]. split; [exact Hreq2 |].
  rewrite Hargs2. subst out1. rewrite Hcache1. unfold cached.
  cbn [fmap option_fmap option_map mbind option_bind].
  rewrite lookup_insert_eq. by simplify_map_eq.
Qed.

(** X18: when the option map has a ['verbose'] key the call raises
    before the solver runs: there is no request and no result and the
    cache is left as it was, but the caller's option map has already
    received its ['eps'] entry. *)
Theorem verbose_option_raises
    (d : SCS.data) (warm verbose : bool) (opts : gmap string pyval)
    (solver_cache : option (gmap string scs_result)) :
  is_Some (opts !! "verbose") →
  let out := solve_via_data d warm verbose opts solver_cache in
  SCS.request out = None
  ∧ SCS.results out = None
  ∧ SCS.cache_after out = solver_cache
  ∧ SCS.opts_after out !! "eps"
    = Some (default (PyFloat 1e-4) (opts !! "eps"))
  ∧ SCS.opts_after out !! "verbose" = opts !! "verbose".
Proof.
  intros Hv out. subst out. rewrite solve_via_data_raises by done.
  cbn [SCS.request SCS.results SCS.cache_after SCS.opts_after].
  do 3 (split; [reflexivity |]).
  split; [by rewrite lookup_insert_eq | by rewrite lookup_insert_ne].
Qed.

End invocation_more.

(** ** Instances of the further properties *)

(** Side 2 and the vector [1, 2, 3]. *)
Lemma tri_to_full_entries_witness :
  [1; 2 / sqrt 2; 2 / sqrt 2; 3]%R !! (1 + 0 * 2) = Some (2 / sqrt 2)%R
  ∧ [1; 2 / sqrt 2; 2 / sqrt 2; 3]%R !! (0 + 1 * 2) = Some (2 / sqrt 2)%R.
Proof.
  destruct (tri_to_full_entries [1; 2; 3]%R 2 _ eq_refl (tri_to_full_2 1 2 3))
    as [Hlow Hup].
  split.
  - exact (Hlow 1 1 0 2%R eq_refl eq_refl).
  - exact (Hup 1 1 0 2%R eq_refl (le_n 1) eq_refl).
Defined.

(** Side 2 and the vector [1, 2, 3]. *)
Lemma tri_to_full_small_sides_witness :
  tri_to_full [1; 2; 3]%R 2 = Some (mirrored_expansion [1; 2; 3]%R 2).
Proof. exact (tri_to_full_small_sides [1; 2; 3]%R 2 (le_n 2) eq_refl). Defined.

(** Side 3 and the vector [1, ..., 6]. *)
Lemma tri_to_full_asymmetric_from_3_witness :
  [1; 2 / sqrt 2; 4 / sqrt 2; 2 / sqrt 2; 3; 5 / sqrt 2;
   3 / sqrt 2; 5 / sqrt 2; 6]%R !! (1 + 1 * 3) = Some 3%R
  ∧ [1; 2 / sqrt 2; 4 / sqrt 2; 2 / sqrt 2; 3; 5 / sqrt 2;
     3 / sqrt 2; 5 / sqrt 2; 6]%R !! (2 + 0 * 3) = Some (4 / sqrt 2)%R
  ∧ [1; 2 / sqrt 2; 4 / sqrt 2; 2 / sqrt 2; 3; 5 / sqrt 2;
     3 / sqrt 2; 5 / sqrt 2; 6]%R !! (0 + 2 * 3) = Some (3 / sqrt 2)%R.
Proof.
  exact (tri_to_full_asymmetric_from_3 3 [1; 2; 3; 4; 5; 6]%R _ 3%R 4%R
           (le_n 3) eq_refl (tri_to_full_3 1 2 3 4 5 6) eq_refl eq_refl).
Defined.

(** The single entry 1 spread over a 2-by-2 matrix. *)
Lemma tri_to_full_broadcasts_singleton_witness :
  [1; 1 / sqrt 2; 1 / sqrt 2; 1]%R !! (1 + 0 * 2) = Some (1 / sqrt 2)%R.
Proof.
  assert (tri_to_full [1%R] 2 = Some [1; 1 / sqrt 2; 1 / sqrt 2; 1]%R) as H
    by (eval_arrays; reflexivity).
  exact (tri_to_full_broadcasts_singleton 2 1%R _ H 1 0 (le_n 2)
           (le_S _ _ (le_n 1))).
Defined.

(** Two 2-by-2 matrices that differ in the upper-right entry only. *)
Lemma forward_vectorize_ignores_upper_witness :
  forward_vectorize 2 [[1; 5]; [2; 3]]%R
  = forward_vectorize 2 [[1; 7]; [2; 3]]%R.
Proof.
  apply forward_vectorize_ignores_upper. intros i j Hji Hi.
  destruct i as [| [| i]]; [| | lia].
  - by replace j with 0 by lia.
  - destruct j as [| [| j]]; [reflexivity | reflexivity | lia].
Defined.

(** A dual vector of three entries read from cursor 0 at side 2. *)
Lemma extract_dual_value_psd_result_witness :
  3 = 0 + 2 * (2 + 1) / 2
  ∧ length [1; 2 / sqrt 2; 2 / sqrt 2; 3]%R = 2 * 2
  ∧ tri_to_full (Np.slice [1; 2; 3]%R 0 3) 2
    = Some [1; 2 / sqrt 2; 2 / sqrt 2; 3]%R.
Proof.
  assert (SCS.extract_dual_value [1; 2; 3]%R 0 (PSD 2)
          = Some ([1; 2 / sqrt 2; 2 / sqrt 2; 3]%R, 3)) as H
    by (eval_arrays; reflexivity).
  exact (extract_dual_value_psd_result _ _ _ _ _ H).
Defined.

(** The solved result inverted with offset 3. *)
Lemma invert_usable_record_witness :
  ∃ r, SCS.invert (λ v : list R, v) "dual_var_id" solved_result
         {| SCS.VAR_ID := 7; SCS.inv_DIMS := Build_ConeDims 0 1 [] 0 [];
            SCS.OFFSET := 3 |} = Some r
       ∧ opt_val r = Some (1 + 3)%R
       ∧ attr r !! s.NUM_ITERS = Some (PyInt 5).
Proof.
  destruct (invert_usable_record (λ v : list R, v) "dual_var_id"
              solved_result
              {| SCS.VAR_ID := 7; SCS.inv_DIMS := Build_ConeDims 0 1 [] 0 [];
                 SCS.OFFSET := 3 |})
    as (r & Hr & Hopt & _ & _ & _ & Hiter & _).
  { unfold usable_statuses. apply elem_of_cons. by left. }
  exists r. by repeat split.
Defined.

(** Two infeasible results with different vectors, diagnostics and
    inverse data. *)
Lemma invert_failure_depends_on_status_only_witness :
  SCS.invert (λ v : list R, v) "dual_var_id"
    {| res_x := [1%R]; res_y := [2%R]; res_s := [3%R];
       info := {| info_status := "Infeasible"; pobj := 9; solveTime := 4;
                  setupTime := 5; iter := 6 |} |}
    {| SCS.VAR_ID := 1; SCS.inv_DIMS := Build_ConeDims 0 0 [] 0 [];
       SCS.OFFSET := 8 |}
  = SCS.invert (λ v : list R, v) "dual_var_id" infeasible_result
      {| SCS.VAR_ID := 7; SCS.inv_DIMS := Build_ConeDims 0 1 [] 0 [];
         SCS.OFFSET := 3 |}.
Proof.
  apply invert_failure_depends_on_status_only; [| reflexivity].
  unfold failure_statuses. simpl. do 2 right. left.
Defined.

(** The program [minimize x + 3] with the row [x - 1 >= 0]. *)
Lemma apply_reassembles_witness :
  [1; 3]%R = [1%R] ++ [3%R]
  ∧ [[1; -1]]%R = hstack (Np.neg [[(- 1)%R]]) [(-1)%R]
  ∧ length [[(- 1)%R]] = length [[1; -1]]%R.
Proof.
  pose proof (apply_reassembles (λ _ : unit, 0)
                (λ _, Build_ConeDims 0 1 [] 0 [])
                (λ _, [1; 3]%R) (λ _, [[1; -1]]%R) tt
                {| SCS.DIMS := Build_ConeDims 0 1 [] 0 []; SCS.C := [1%R];
                   SCS.A := [[(- 1)%R]]; SCS.B := [(-1)%R] |}
                {| SCS.VAR_ID := 0;
                   SCS.inv_DIMS := Build_ConeDims 0 1 [] 0 [];
                   SCS.OFFSET := 3 |} eq_refl)
    as (Hc & HA & HlenA & _).
  by repeat split.
Defined.

(** A one-row map without columns next to a cost vector of one entry. *)
Lemma apply_fails_iff_witness :
  SCS.apply (λ _ : unit, 0) (λ _, Build_ConeDims 0 1 [] 0 [])
    (λ _, [3%R]) (λ _, [[]]) tt = None.
Proof.
  apply (apply_fails_iff (λ _ : unit, 0) (λ _, Build_ConeDims 0 1 [] 0 [])
           (λ _, [3%R]) (λ _, [[]]) tt); [discriminate |].
  right. apply elem_of_cons. by left.
Defined.

(** A cold call with [max_iters] as the only option. *)
Lemma request_problem_data_witness :
  ∃ req,
    SCS.request
      (SCS.solve_via_data "SCS" (λ _, solved_result) lp_data false true
         {[ "max_iters" := PyInt 2500 ]} None) = Some req
    ∧ call_args req !! "b" = Some (Vector [(-1)%R])
    ∧ call_verbose req = true.
Proof.
  destruct (request_problem_data "SCS" (λ _, solved_result) lp_data false
              true {[ "max_iters" := PyInt 2500 ]} None)
    as (req & Hreq & _ & Hb & _ & _ & _ & Hverb).
  { by apply lookup_singleton_ne. }
  exists req. by repeat split.
Defined.

(** Two calls in a row on a cache that starts with the solved result. *)
Lemma second_call_warm_starts_from_first_witness :
  ∃ req2,
    SCS.request
      (SCS.solve_via_data "SCS" (λ _, infeasible_result) lp_data true false
         ∅
         (SCS.cache_after
            (SCS.solve_via_data "SCS" (λ _, infeasible_result) lp_data false
               false ∅ (Some {[ "SCS" := solved_result ]})))) = Some req2
    ∧ call_args req2 !! "x" = Some (Vector (res_x infeasible_result)).
Proof.
  destruct (second_call_warm_starts_from_first "SCS"
              (λ _, infeasible_result) lp_data lp_data false false false
              ∅ ∅ {[ "SCS" := solved_result ]} (lookup_empty _)
              (lookup_empty _))
    as (res1 & req2 & Hres1 & Hreq2 & Hx & _).
  exists req2. split; [exact Hreq2 |].
  rewrite Hx. f_equal.
  destruct (solve_via_data_calls "SCS" (λ _, infeasible_result) lp_data
              false false ∅ (Some {[ "SCS" := solved_result ]})
              (lookup_empty _)) as (req1 & _ & Hres1' & _).
  rewrite Hres1' in Hres1. by injection Hres1 as <-.
Defined.

(** A call that passes [verbose] both by keyword and in the option map. *)
Lemma verbose_option_raises_witness :
  SCS.request
    (SCS.solve_via_data "SCS" (λ _, solved_result) lp_data false true
       {[ "verbose" := PyBool true ]} (Some ∅)) = None
  ∧ SCS.cache_after
      (SCS.solve_via_data "SCS" (λ _, solved_result) lp_data false true
         {[ "verbose" := PyBool true ]} (Some ∅)) = Some ∅.
Proof.
  destruct (verbose_option_raises "SCS" (λ _, solved_result) lp_data false
              true {[ "verbose" := PyBool true ]} (Some ∅))
    as (Hreq & _ & Hcache & _).
  { eexists. apply lookup_singleton_eq. }
  by split.
Defined.
